(** * proctorai: the violation-inference core of [useProctoring]

    A shallow embedding of [src/hooks/useProctoring.ts] (the React hook
    that turns per-frame detections into a violation timeline and an
    integrity score) and of the label filter of
    [ProctoringDetector.detectObjects], with the properties the
    specification states about them.

    Conventions.
    - Instants are [Z]: milliseconds since the epoch, as [Date.now()] and
      [Date.getTime()] return them.  A synchronous call reads the clock
      once: the instant is an argument of the operation.
    - The three [useRef] maps are [gmap]s; React state updates written as
      [setState (prev => ...)] are applied in call order, so they are
      modelled as immediate updates of the record.
    - [setTimeout]/[clearTimeout] act on an explicit list of pending
      timers; handles are positive integers, as in a browser.
    - Labels are ASCII strings. *)

From Stdlib Require Import ZArith QArith Qround Ascii String List Lia.
From stdpp Require Import base decidable countable gmap strings list pretty sorting.

Local Open Scope string_scope.
Local Open Scope list_scope.
Local Open Scope Z_scope.

(** ** Data model ([src/types/proctoring]) *)

Inductive ViolationType :=
  | FACE_NOT_VISIBLE
  | LOOKING_AWAY
  | MULTIPLE_FACES
  | PHONE_DETECTED
  | BOOK_DETECTED
  | DEVICE_DETECTED
  | CANDIDATE_ABSENT.

Inductive Severity := low | medium | high | critical.

#[global] Instance ViolationType_eq_dec : EqDecision ViolationType.
Proof. solve_decision. Defined.

#[global] Instance Severity_eq_dec : EqDecision Severity.
Proof. solve_decision. Defined.

Definition ViolationType_code (t : ViolationType) : positive :=
  match t with
  | FACE_NOT_VISIBLE => 1 | LOOKING_AWAY => 2 | MULTIPLE_FACES => 3
  | PHONE_DETECTED => 4 | BOOK_DETECTED => 5 | DEVICE_DETECTED => 6
  | CANDIDATE_ABSENT => 7
  end%positive.

Definition ViolationType_decode (p : positive) : option ViolationType :=
  match p with
  | 1 => Some FACE_NOT_VISIBLE | 2 => Some LOOKING_AWAY
  | 3 => Some MULTIPLE_FACES | 4 => Some PHONE_DETECTED
  | 5 => Some BOOK_DETECTED | 6 => Some DEVICE_DETECTED
  | 7 => Some CANDIDATE_ABSENT | _ => None
  end%positive.

#[global] Instance ViolationType_countable : Countable ViolationType.
Proof.
  apply (inj_countable ViolationType_code ViolationType_decode).
  intros []; reflexivity.
Defined.

(** [ViolationEvent]; [duration] is the optional field. *)
Record ViolationEvent := mkViolation {
  vid : string;
  vtype : ViolationType;
  timestamp : Z;
  description : string;
  severity : Severity;
  duration : option Z
}.

Record SessionData := mkSession {
  candidateName : string;
  sessionId : string;
  startTime : Z;
  endTime : option Z;
  violations : list ViolationEvent;
  totalDuration : Z;
  integrityScore : Z
}.

Record MonitoringStatus := mkStatus {
  isRecording : bool;
  faceDetected : bool;
  objectsDetected : list string;
  currentViolation : option ViolationType;
  violationStartTime : option Z
}.

(** ** Scoring: [calculateIntegrityScore] *)

(** [severityRank = { low: 1, medium: 2, high: 3, critical: 4 }] *)
Definition severityRank (s : Severity) : Z :=
  match s with low => 1 | medium => 2 | high => 3 | critical => 4 end.

(** The [switch] of the second loop. *)
Definition deduction (s : Severity) : Z :=
  match s with low => 2 | medium => 5 | high => 10 | critical => 20 end.

(** Body of [violations.forEach]: the pair is
    [(uniqueViolationTypes, violationTypeSeverity)].  In the [else] branch
    [get(...)!] is compared through [severityRank]; an absent entry would
    give [undefined], for which [>] is false. *)
Definition scoreStep
    (acc : gset ViolationType * gmap ViolationType Severity)
    (violation : ViolationEvent)
    : gset ViolationType * gmap ViolationType Severity :=
  let '(uniqueViolationTypes, violationTypeSeverity) := acc in
  if decide (vtype violation ∈ uniqueViolationTypes) then
    match violationTypeSeverity !! vtype violation with
    | Some currentSeverity =>
        if severityRank currentSeverity <? severityRank (severity violation)
        then (uniqueViolationTypes,
              <[vtype violation := severity violation]> violationTypeSeverity)
        else acc
    | None => acc
    end
  else ({[vtype violation]} ∪ uniqueViolationTypes,
        <[vtype violation := severity violation]> violationTypeSeverity).

(** [violationTypeSeverity.forEach(severity => deductions += ...)].  A JS
    [Map] is visited in insertion order and a [gmap] in key order; the
    loop only adds integers, so the order does not show in the result
    (see [sumDeductions_keys]). *)
Definition sumDeductions (m : gmap ViolationType Severity) : Z :=
  map_fold (λ _ sev deductions, deductions + deduction sev) 0 m.

Definition calculateIntegrityScore (violations : list ViolationEvent) : Z :=
  let '(_, violationTypeSeverity) := foldl scoreStep (∅, ∅) violations in
  Z.max 0 (100 - sumDeductions violationTypeSeverity).

(** ** The reference definition of the score, following the specification

    Group by type, keep the maximum severity of each group, add the
    deductions of the maxima, clamp [100 - total] to [0, 100]. *)

Definition sevMax (a b : Severity) : Severity :=
  if severityRank a <? severityRank b then b else a.

Definition optMax (a b : option Severity) : option Severity :=
  match a, b with
  | Some x, Some y => Some (sevMax x y)
  | Some x, None => Some x
  | None, _ => b
  end.

(** What an event contributes to the score. *)
Definition scoreKey (v : ViolationEvent) : ViolationType * Severity :=
  (vtype v, severity v).

(** Maximum severity among the pairs of type [ty]; [None] for an empty
    group. *)
Definition groupMax (ty : ViolationType)
    (ps : list (ViolationType * Severity)) : option Severity :=
  foldr (λ p acc, if decide (p.1 = ty) then optMax (Some p.2) acc else acc)
        None ps.

Definition sumZ {A} (f : A → Z) (l : list A) : Z :=
  foldr (λ x acc, f x + acc) 0 l.

Definition groupDeduction (ps : list (ViolationType * Severity))
    (ty : ViolationType) : Z :=
  from_option deduction 0 (groupMax ty ps).

Definition clamp (x lo hi : Z) : Z := Z.max lo (Z.min x hi).

Definition referenceScoreOfPairs (ps : list (ViolationType * Severity)) : Z :=
  let types := remove_dups (ps.*1) in
  let totalDeductions := sumZ (groupDeduction ps) types in
  clamp (100 - totalDeductions) 0 100.

Definition referenceScore (violations : list ViolationEvent) : Z :=
  referenceScoreOfPairs (scoreKey <$> violations).

(** ** Strings: [toLowerCase] and [includes] on ASCII labels *)

Definition lowerAscii (c : ascii) : ascii :=
  let n := nat_of_ascii c in
  if (65 <=? n)%nat && (n <=? 90)%nat then ascii_of_nat (n + 32) else c.

Fixpoint toLowerCase (s : string) : string :=
  match s with
  | EmptyString => EmptyString
  | String c rest => String (lowerAscii c) (toLowerCase rest)
  end.

(** [hay.includes(needle)] *)
Fixpoint includes (hay needle : string) : bool :=
  if String.prefix needle hay then true
  else match hay with
       | EmptyString => false
       | String _ rest => includes rest needle
       end.

(** ** The hook's state

    [sessionData] and [monitoringStatus] are the two [useState] cells, the
    three maps are the [useRef] cells.  [pendingTimers] and [nextHandle]
    are the part of the host's timer queue that [setTimeout] and
    [clearTimeout] touch: a timer stays in the queue until it fires or is
    cleared. *)

Record PendingTimer := mkTimer {
  thandle : positive;
  tdue : Z;
  ttype : ViolationType;
  tdescription : string;
  tseverity : Severity
}.

Record Hook := mkHook {
  sessionData : SessionData;
  monitoringStatus : MonitoringStatus;
  violationTimeouts : gmap ViolationType positive;
  objectCooldowns : gmap string Z;
  violationCooldowns : gmap ViolationType Z;
  pendingTimers : list PendingTimer;
  nextHandle : positive
}.

(** The state at the first render, at instant [now]. *)
Definition useProctoring (candidateName : string) (now : Z) : Hook :=
  {| sessionData :=
       {| candidateName := candidateName;
          sessionId := "session_" +:+ pretty now;
          startTime := now;
          endTime := None;
          violations := [];
          totalDuration := 0;
          integrityScore := 100 |};
     monitoringStatus :=
       {| isRecording := false;
          faceDetected := false;
          objectsDetected := [];
          currentViolation := None;
          violationStartTime := None |};
     violationTimeouts := ∅;
     objectCooldowns := ∅;
     violationCooldowns := ∅;
     pendingTimers := [];
     nextHandle := 1%positive |}.

(** *** Field updates *)

Definition withSession (f : SessionData → SessionData) (st : Hook) : Hook :=
  {| sessionData := f (sessionData st);
     monitoringStatus := monitoringStatus st;
     violationTimeouts := violationTimeouts st;
     objectCooldowns := objectCooldowns st;
     violationCooldowns := violationCooldowns st;
     pendingTimers := pendingTimers st;
     nextHandle := nextHandle st |}.

Definition withStatus (f : MonitoringStatus → MonitoringStatus) (st : Hook) : Hook :=
  {| sessionData := sessionData st;
     monitoringStatus := f (monitoringStatus st);
     violationTimeouts := violationTimeouts st;
     objectCooldowns := objectCooldowns st;
     violationCooldowns := violationCooldowns st;
     pendingTimers := pendingTimers st;
     nextHandle := nextHandle st |}.

Definition withViolationCooldowns
    (f : gmap ViolationType Z → gmap ViolationType Z) (st : Hook) : Hook :=
  {| sessionData := sessionData st;
     monitoringStatus := monitoringStatus st;
     violationTimeouts := violationTimeouts st;
     objectCooldowns := objectCooldowns st;
     violationCooldowns := f (violationCooldowns st);
     pendingTimers := pendingTimers st;
     nextHandle := nextHandle st |}.

Definition withObjectCooldowns
    (f : gmap string Z → gmap string Z) (st : Hook) : Hook :=
  {| sessionData := sessionData st;
     monitoringStatus := monitoringStatus st;
     violationTimeouts := violationTimeouts st;
     objectCooldowns := f (objectCooldowns st);
     violationCooldowns := violationCooldowns st;
     pendingTimers := pendingTimers st;
     nextHandle := nextHandle st |}.

Definition withTimers
    (timeouts : gmap ViolationType positive) (queue : list PendingTimer)
    (next : positive) (st : Hook) : Hook :=
  {| sessionData := sessionData st;
     monitoringStatus := monitoringStatus st;
     violationTimeouts := timeouts;
     objectCooldowns := objectCooldowns st;
     violationCooldowns := violationCooldowns st;
     pendingTimers := queue;
     nextHandle := next |}.

(** ** [getCooldownPeriod] and [addViolation] *)

Definition getCooldownPeriod (type : ViolationType) : Z :=
  match type with
  | MULTIPLE_FACES => 15000
  | FACE_NOT_VISIBLE => 20000
  | LOOKING_AWAY => 10000
  | PHONE_DETECTED | DEVICE_DETECTED | BOOK_DETECTED => 30000
  | _ => 10000
  end.

(** [violationCooldowns.current.get(type) || 0] *)
Definition lastEmission (st : Hook) (type : ViolationType) : Z :=
  default 0 (violationCooldowns st !! type).

(** The event [addViolation] builds. *)
Definition newViolation (now : Z) (type : ViolationType)
    (description : string) (severity : Severity) : ViolationEvent :=
  {| vid := "violation_" +:+ pretty now;
     vtype := type;
     timestamp := now;
     description := description;
     severity := severity;
     duration := None |}.

(** The updater passed to [setSessionData]. *)
Definition appendViolation (violation : ViolationEvent) (prev : SessionData)
    : SessionData :=
  let newViolations := violations prev ++ [violation] in
  let newScore := calculateIntegrityScore newViolations in
  {| candidateName := candidateName prev;
     sessionId := sessionId prev;
     startTime := startTime prev;
     endTime := endTime prev;
     violations := newViolations;
     totalDuration := totalDuration prev;
     integrityScore := newScore |}.

(** The toast is a notification only and leaves the state alone. *)
Definition addViolation (now : Z) (type : ViolationType)
    (description : string) (severity : Severity) (st : Hook) : Hook :=
  let lastViolation := lastEmission st type in
  let cooldownPeriod := getCooldownPeriod type in
  if now - lastViolation <? cooldownPeriod then st
  else
    let violation := newViolation now type description severity in
    withViolationCooldowns (λ m, <[type := now]> m)
      (withSession (appendViolation violation) st).

(** ** Debounce timers *)

(** [clearTimeout(handle)] on the queue. *)
Definition clearTimeout (handle : positive) (queue : list PendingTimer)
    : list PendingTimer :=
  filter (λ t, thandle t ≠ handle) queue.

(** [delay] milliseconds after [now] the callback
    [addViolation(type, description, severity);
     violationTimeouts.current.delete(type)] is due. *)
Definition handleViolationTimeout (now : Z) (type : ViolationType)
    (description : string) (severity : Severity) (delay : Z) (st : Hook) : Hook :=
  if decide (is_Some (violationTimeouts st !! type)) then st
  else
    let timeout := nextHandle st in
    withTimers (<[type := timeout]> (violationTimeouts st))
               (pendingTimers st ++
                  [mkTimer timeout (now + delay) type description severity])
               (Pos.succ timeout) st.

(** A handle is a positive number, so [if (timeout)] tests presence. *)
Definition clearViolationTimeout (type : ViolationType) (st : Hook) : Hook :=
  match violationTimeouts st !! type with
  | Some timeout =>
      withTimers (delete type (violationTimeouts st))
                 (clearTimeout timeout (pendingTimers st))
                 (nextHandle st) st
  | None => st
  end.

(** The host runs the callback of timer [handle] at instant [now]: only a
    pending timer whose delay has elapsed can fire, and it leaves the queue
    when it does. *)
Definition fireTimer (handle : positive) (now : Z) (st : Hook) : option Hook :=
  match list_find (λ t, thandle t = handle) (pendingTimers st) with
  | Some (_, t) =>
      if tdue t <=? now then
        let st1 := withTimers (violationTimeouts st)
                     (clearTimeout handle (pendingTimers st)) (nextHandle st) st in
        let st2 := addViolation now (ttype t) (tdescription t) (tseverity t) st1 in
        Some (withTimers (delete (ttype t) (violationTimeouts st2))
                (pendingTimers st2) (nextHandle st2) st2)
      else None
  | None => None
  end.

(** ** [startMonitoring] and [stopMonitoring] *)

Definition setRecording (b : bool) (prev : MonitoringStatus) : MonitoringStatus :=
  {| isRecording := b;
     faceDetected := faceDetected prev;
     objectsDetected := objectsDetected prev;
     currentViolation := currentViolation prev;
     violationStartTime := violationStartTime prev |}.

Definition startMonitoring (now : Z) (st : Hook) : Hook :=
  withSession (λ prev,
      {| candidateName := candidateName prev;
         sessionId := sessionId prev;
         startTime := now;
         endTime := endTime prev;
         violations := violations prev;
         totalDuration := totalDuration prev;
         integrityScore := integrityScore prev |})
    (withStatus (setRecording true) st).

(** [Math.floor (x / 1000)] is [Z.div], which rounds down. *)
Definition stopMonitoring (now : Z) (st : Hook) : Hook :=
  let st1 := withStatus (setRecording false) st in
  let st2 := withSession (λ prev,
      {| candidateName := candidateName prev;
         sessionId := sessionId prev;
         startTime := startTime prev;
         endTime := Some now;
         violations := violations prev;
         totalDuration := (now - startTime prev) / 1000;
         integrityScore := integrityScore prev |}) st1 in
  (* violationTimeouts.current.forEach(timeout => clearTimeout(timeout)) *)
  let queue := map_fold (λ _ timeout q, clearTimeout timeout q)
                 (pendingTimers st2) (violationTimeouts st2) in
  (* violationTimeouts.current.clear(); violationCooldowns.current.clear() *)
  withViolationCooldowns (λ _, ∅) (withTimers ∅ queue (nextHandle st2) st2).

(** ** The detection adapter's results *)

(** A face box as the hook uses it: [analyzeLookingDirection(face)] is
    floating-point geometry inside the adapter, so a face carries the
    adapter's answer. *)
Record Face := mkFace { isLookingAway : bool }.

Record FaceResult := mkFaceResult {
  hasFace : bool;
  count : Z;
  multipleFaces : bool;
  faces : list Face
}.

Record ObjectResult := mkObject {
  object : string;
  confidence : Q
}.

(** [Math.round(obj.confidence * 100)], computed on the exact value of the
    confidence; it only shows in description texts. *)
Definition roundPercent (c : Q) : Z := Qfloor (c * 100 + (1 # 2))%Q.

(** *** [ProctoringDetector.detectObjects], the TensorFlow path *)

Record Prediction := mkPrediction {
  class : string;
  score : Q
}.

Definition suspiciousObjects : list string :=
  ["cell phone"; "book"; "laptop"; "mouse"; "keyboard";
   "remote"; "scissors"; "teddy bear"; "hair drier"; "toothbrush"].

(** The double nearest to [0.4], exactly. *)
Definition scoreThreshold : Q := 3602879701896397 # 9007199254740992.

Definition isSuspicious (prediction : Prediction) : bool :=
  existsb (λ obj, includes (toLowerCase (class prediction)) obj
                  || includes obj (toLowerCase (class prediction)))
          suspiciousObjects
  && negb (Qle_bool (score prediction) scoreThreshold).

Definition detectObjects (predictions : list Prediction) : list ObjectResult :=
  (λ prediction, mkObject (class prediction) (score prediction))
    <$> filter (λ p, isSuspicious p = true) predictions.

(** ** [processDetectionResults] *)

(** [objectCooldowns.current.get(objectKey) || 0] *)
Definition lastDetection (st : Hook) (objectKey : string) : Z :=
  default 0 (objectCooldowns st !! objectKey).

(** The three description templates of the object loop. *)
Definition phoneDescription (obj : ObjectResult) : string :=
  "Mobile phone detected with "
    +:+ pretty (roundPercent (confidence obj)) +:+ "% confidence".

Definition bookDescription (obj : ObjectResult) : string :=
  "Book/notes detected with "
    +:+ pretty (roundPercent (confidence obj)) +:+ "% confidence".

Definition deviceDescription (obj : ObjectResult) : string :=
  "Electronic device detected: " +:+ object obj.

(** Body of [objectResults.forEach]. *)
Definition processObject (now : Z) (obj : ObjectResult) (st : Hook) : Hook :=
  let objectKey := toLowerCase (object obj) in
  let lastDetection := lastDetection st objectKey in
  let cooldownPeriod := 30000 in
  if cooldownPeriod <? now - lastDetection then
    if includes objectKey "phone" then
      withObjectCooldowns (λ m, <[objectKey := now]> m)
        (addViolation now PHONE_DETECTED (phoneDescription obj) critical st)
    else if includes objectKey "book" then
      withObjectCooldowns (λ m, <[objectKey := now]> m)
        (addViolation now BOOK_DETECTED (bookDescription obj) high st)
    else if includes objectKey "laptop" || includes objectKey "tablet" then
      withObjectCooldowns (λ m, <[objectKey := now]> m)
        (addViolation now DEVICE_DETECTED (deviceDescription obj) high st)
    else st
  else st.

Definition processFaceVisibility (now : Z) (faceResults : FaceResult)
    (st : Hook) : Hook :=
  if negb (hasFace faceResults) then
    handleViolationTimeout now FACE_NOT_VISIBLE
      "Candidate's face is not visible for more than 10 seconds" high 10000 st
  else clearViolationTimeout FACE_NOT_VISIBLE st.

Definition processMultipleFaces (now : Z) (faceResults : FaceResult)
    (st : Hook) : Hook :=
  if hasFace faceResults && (1 <? count faceResults) && multipleFaces faceResults
  then addViolation now MULTIPLE_FACES
         ("Multiple people detected in frame ("
            +:+ pretty (count faceResults) +:+ " faces)")
         critical st
  else st.

Definition processLookingAway (now : Z) (faceResults : FaceResult)
    (st : Hook) : Hook :=
  match hasFace faceResults, faces faceResults with
  | true, face0 :: _ =>
      if isLookingAway face0 then
        handleViolationTimeout now LOOKING_AWAY
          "Candidate looking away from screen for more than 5 seconds"
          medium 5000 st
      else clearViolationTimeout LOOKING_AWAY st
  | _, _ => clearViolationTimeout LOOKING_AWAY st
  end.

Definition processDetectionResults (now : Z) (faceResults : FaceResult)
    (objectResults : list ObjectResult) (st : Hook) : Hook :=
  let st1 := processFaceVisibility now faceResults st in
  let st2 := processMultipleFaces now faceResults st1 in
  let st3 := processLookingAway now faceResults st2 in
  foldl (λ acc obj, processObject now obj acc) st3 objectResults.

(** The [img.onload] handler of [processVideoFrame], once both detections
    have answered.  [processVideoFrame] tests [isDetectorReady] and
    [isRecording] when the frame is captured; the handler runs later and
    tests nothing. *)
Definition processFrame (now : Z) (faceResults : FaceResult)
    (objectResults : list ObjectResult) (st : Hook) : Hook :=
  let st1 := withStatus (λ prev,
      {| isRecording := isRecording prev;
         faceDetected := hasFace faceResults;
         objectsDetected := object <$> objectResults;
         currentViolation := currentViolation prev;
         violationStartTime := violationStartTime prev |}) st in
  processDetectionResults now faceResults objectResults st1.

(** ** What can happen to a mounted hook *)

Inductive Event :=
  | EStart (now : Z)
  | EStop (now : Z)
  | EFrame (now : Z) (faceResults : FaceResult) (objectResults : list ObjectResult)
  | EFire (handle : positive) (now : Z)
  | EAddViolation (now : Z) (type : ViolationType) (description : string)
      (severity : Severity).

Definition step (st : Hook) (e : Event) : Hook :=
  match e with
  | EStart now => startMonitoring now st
  | EStop now => stopMonitoring now st
  | EFrame now faceResults objectResults =>
      processFrame now faceResults objectResults st
  | EFire handle now => default st (fireTimer handle now st)
  | EAddViolation now type description severity =>
      addViolation now type description severity st
  end.

Definition run (st : Hook) (events : list Event) : Hook := foldl step st events.

(** Pending timers of one violation type. *)
Definition timersOf (type : ViolationType) (st : Hook) : list PendingTimer :=
  filter (λ t, ttype t = type) (pendingTimers st).

(** ** Predicates on the timer state *)

(** The part of the state the timer operations read and write. *)
Definition timerView (st : Hook)
    : gmap ViolationType positive * list PendingTimer * positive :=
  (violationTimeouts st, pendingTimers st, nextHandle st).

(** [violationTimeouts] mirrors the queue: every pending timer is recorded
    under its type, every recorded handle is pending, handles are not
    reused. *)
Definition coherentView
    (v : gmap ViolationType positive * list PendingTimer * positive) : Prop :=
  let '(timeouts, queue, next) := v in
  (∀ t, t ∈ queue → timeouts !! ttype t = Some (thandle t))
  ∧ (∀ ty h, timeouts !! ty = Some h →
       ∃ t, t ∈ queue ∧ ttype t = ty ∧ thandle t = h)
  ∧ NoDup (thandle <$> queue)
  ∧ (∀ t, t ∈ queue → (thandle t < next)%positive).

Definition timersCoherent (st : Hook) : Prop := coherentView (timerView st).

(** A handle that is not pending and will not be handed out again. *)
Definition handleDead (h : positive) (st : Hook) : Prop :=
  (∀ t, t ∈ pendingTimers st → thandle t ≠ h) ∧ (h < nextHandle st)%positive.

(** The events of one type in the timeline. *)
Definition violationsOf (type : ViolationType) (st : Hook) : list ViolationEvent :=
  filter (λ v, vtype v = type) (violations (sessionData st)).

(** Only time passes: the host fires timers, nothing else happens. *)
Definition firings (fs : list (positive * Z)) : list Event :=
  (λ f, EFire f.1 f.2) <$> fs.

(** ** Vocabulary for the object rules *)

(** The four substrings [processDetectionResults] looks for. *)
Definition hasKeyword (objectKey : string) : bool :=
  includes objectKey "phone" || includes objectKey "book"
  || includes objectKey "laptop" || includes objectKey "tablet".

(** What each matching branch of the object loop does: call
    [addViolation], then record the label's timestamp. *)
Definition emitObject (now : Z) (objectKey : string) (type : ViolationType)
    (description : string) (severity : Severity) (st : Hook) : Hook :=
  withObjectCooldowns (λ m, <[objectKey := now]> m)
    (addViolation now type description severity st).

(** ** Concrete sessions *)

Definition t0 : Z := 1700000000000.

(** One face, looking at the screen. *)
Definition facingFace : FaceResult := mkFaceResult true 1 false [mkFace false].

(** One face, looking away. *)
Definition awayFace : FaceResult := mkFaceResult true 1 false [mkFace true].

Definition cellPhone : ObjectResult := mkObject "cell phone" (55 # 100).
Definition phoneBook : ObjectResult := mkObject "Phone Book" (9 # 10).
Definition mouse : ObjectResult := mkObject "mouse" (1 # 2).
Definition notebook : ObjectResult := mkObject "Notebook" (7 # 10).
Definition laptop : ObjectResult := mkObject "laptop" (8 # 10).

(** Monitoring started at [t0]; a phone is seen in the first frame. *)
Definition sessionWithPhone : Hook :=
  run (useProctoring "Ann" t0) [EStart t0; EFrame (t0 + 1500) facingFace [cellPhone]].

(** Monitoring started at [t0]; the candidate looks away in the first
    frame, so the looking-away timer is pending, due at [t0 + 6500]. *)
Definition sessionLookingAway : Hook :=
  run (useProctoring "Ann" t0) [EStart t0; EFrame (t0 + 1500) awayFace []].

Definition lookingAwayTimer : PendingTimer :=
  mkTimer 1 (t0 + 6500) LOOKING_AWAY
    "Candidate looking away from screen for more than 5 seconds" medium.

Definition phoneCritical : ViolationEvent :=
  newViolation (t0 + 1500) PHONE_DETECTED "Mobile phone detected with 55% confidence" critical.
Definition phoneHigh : ViolationEvent :=
  newViolation (t0 + 40000) PHONE_DETECTED "Mobile phone detected with 41% confidence" high.
Definition awayMedium : ViolationEvent :=
  newViolation (t0 + 9000) LOOKING_AWAY
    "Candidate looking away from screen for more than 5 seconds" medium.
Definition awayMediumLater : ViolationEvent :=
  newViolation (t0 + 90000) LOOKING_AWAY "again" medium.

(** ** Runs of the hook: vocabulary *)

(** The instant an event carries. *)
Definition eventTime (e : Event) : Z :=
  match e with
  | EStart now | EStop now | EFrame now _ _ | EFire _ now
  | EAddViolation now _ _ _ => now
  end.

Definition isStop (e : Event) : bool :=
  match e with EStop _ => true | _ => false end.

(** The enumeration [ViolationType], in declaration order. *)
Definition allViolationTypes : list ViolationType :=
  [FACE_NOT_VISIBLE; LOOKING_AWAY; MULTIPLE_FACES; PHONE_DETECTED;
   BOOK_DETECTED; DEVICE_DETECTED; CANDIDATE_ABSENT].

(** The stored score is the score of the stored timeline. *)
Definition scoreConsistent (s : SessionData) : Prop :=
  integrityScore s = calculateIntegrityScore (violations s).

(** How the session data of a later state relates to an earlier one: same
    candidate and id, the timeline extended at the end, the stored score
    still the score of the timeline if it was. *)
Definition sessionGrows (s s' : SessionData) : Prop :=
  candidateName s' = candidateName s
  ∧ sessionId s' = sessionId s
  ∧ violations s `prefix_of` violations s'
  ∧ (scoreConsistent s → scoreConsistent s').

(** What decides whether [addViolation] emits, and what it writes. *)
Definition emissionView (st : Hook) : SessionData * gmap ViolationType Z :=
  (sessionData st, violationCooldowns st).

(** The type [ty] was last emitted at [last], and [V] is what the timeline
    holds of it. *)
Definition quiet (ty : ViolationType) (last : Z) (V : list ViolationEvent)
    (st : Hook) : Prop :=
  violationCooldowns st !! ty = Some last ∧ violationsOf ty st = V.

(** Whether the looking-away rule finds the candidate looking away: a
    face is there, a face box is there, and the first box looks away. *)
Definition gazeAway (faceResults : FaceResult) : bool :=
  match hasFace faceResults, faces faceResults with
  | true, face0 :: _ => isLookingAway face0
  | _, _ => false
  end.

(** The pending timers of [type] after a debounce is asked for: the
    pending one if there is one, else a new one due at [due]. *)
Definition keepOrStart (type : ViolationType) (due : Z) (description : string)
    (severity : Severity) (st : Hook) : list PendingTimer :=
  match timersOf type st with
  | [] => [mkTimer (nextHandle st) due type description severity]
  | pending => pending
  end.

(** [isRecording] after a run is set by the last start or stop in it. *)
Definition recordingAfter (recording : bool) (events : list Event) : bool :=
  foldl (λ r e, match e with
                | EStart _ => true
                | EStop _ => false
                | _ => r
                end) recording events.

(** ** [ProctoringDetector.detectFaces] and [detectFacesBackup] *)

(** [face.probability] as BlazeFace hands it over: a number, an array of
    numbers, or something else (a tensor). *)
Inductive Probability :=
  | ProbNumber (p : Q)
  | ProbArray (ps : list Q)
  | ProbOther.

(** A prediction of the face model; [predictedFace] stands for the box
    computed from its corners. *)
Record FacePrediction := mkFacePrediction {
  probability : Probability;
  predictedFace : Face
}.

(** The double nearest to [0.7], exactly. *)
Definition faceThreshold : Q := 3152519739159347 # 4503599627370496.

(** [Array.isArray(p) ? p[0] : p], then
    [typeof prob === 'number' ? prob > 0.7 : true]. *)
Definition isValidFace (face : FacePrediction) : bool :=
  let prob := match probability face with
              | ProbArray ps => head ps
              | ProbNumber p => Some p
              | ProbOther => None
              end in
  match prob with
  | Some prob => negb (Qle_bool prob faceThreshold)
  | None => true
  end.

(** The TensorFlow path of [detectFaces]. *)
Definition detectFaces (predictions : list FacePrediction) : FaceResult :=
  let validFaces := filter (λ face, isValidFace face = true) predictions in
  {| count := Z.of_nat (length validFaces);
     faces := predictedFace <$> validFaces;
     hasFace := (0 <? length validFaces)%nat;
     multipleFaces := (1 <? length validFaces)%nat |}.

(** The box [{0.25, 0.25, 0.75, 0.75}] that the backup path puts in for a
    face without a region: its centre is the screen centre, at distance 0,
    so it does not look away. *)
Definition defaultFace : Face := mkFace false.

(** How [detectFacesBackup] puts its result together from the three pixel
    analyses ([detectMotion], [analyzeCenterRegion], [detectFaceRegions]).
    Without a 2D context it returns what the three analyses give when all
    are negative, [detectFacesBackup false false []]. *)
Definition detectFacesBackup (hasMotion hasSignificantContent : bool)
    (faceRegions : list Face) : FaceResult :=
  let hasFace :=
    hasMotion && (hasSignificantContent || (0 <? length faceRegions)%nat) in
  let faceCount :=
    if (0 <? length faceRegions)%nat then Z.of_nat (length faceRegions)
    else if hasFace then 1 else 0 in
  {| count := faceCount;
     faces := if (0 <? length faceRegions)%nat then faceRegions
              else if hasFace then [defaultFace] else [];
     hasFace := hasFace;
     multipleFaces := 1 <? faceCount |}.

(** What both paths guarantee about the shape of a result. *)
Definition wellShaped (r : FaceResult) : Prop :=
  Z.of_nat (length (faces r)) = count r
  ∧ multipleFaces r = (1 <? count r)
  ∧ (hasFace r = true → 0 < count r).

(** ** The session report ([SessionReport]) *)

(** [acc[type] = (acc[type] || 0) + 1] on an object used as a map: an
    existing key keeps its place, a new key goes last. *)
Fixpoint bump (type : ViolationType) (acc : list (ViolationType * Z))
    : list (ViolationType * Z) :=
  match acc with
  | [] => [(type, 1)]
  | (k, n) :: rest =>
      if decide (k = type) then (k, n + 1) :: rest
      else (k, n) :: bump type rest
  end.

(** [sessionData.violations.reduce(..., {})]; the list is what
    [Object.entries] returns. *)
Definition violationCounts (violations : list ViolationEvent)
    : list (ViolationType * Z) :=
  foldl (λ acc violation, bump (vtype violation) acc) [] violations.

(** Number of events of one type. *)
Definition eventsOfType (type : ViolationType)
    (violations : list ViolationEvent) : Z :=
  Z.of_nat (length (filter (λ v, vtype v = type) violations)).

(** [Math.floor(seconds / 60)] and [seconds % 60]; [%] takes the sign of
    the dividend, as [Z.rem]. *)
Definition durationMinutes (seconds : Z) : Z := seconds / 60.
Definition durationSeconds (seconds : Z) : Z := Z.rem seconds 60.

Definition formatDuration (seconds : Z) : string :=
  pretty (durationMinutes seconds) +:+ "m "
    +:+ pretty (durationSeconds seconds) +:+ "s".

(** ** The alerts panel ([AlertsPanel]) *)

(** [violations.sort((a, b) => b.timestamp.getTime() - a.timestamp.getTime())].
    [Array.prototype.sort] is stable, so its result is the one list that
    is a rearrangement of the input, newest first, with events of equal
    timestamp in their input order; insertion from the right computes
    it.  The sort is in place: the sorted list is also what the array
    given to the panel holds afterwards. *)
Fixpoint insertByTime (v : ViolationEvent) (sorted : list ViolationEvent)
    : list ViolationEvent :=
  match sorted with
  | [] => [v]
  | w :: rest =>
      if timestamp w <=? timestamp v then v :: w :: rest
      else w :: insertByTime v rest
  end.

Definition newestFirst (violations : list ViolationEvent) : list ViolationEvent :=
  foldr insertByTime [] violations.

Record AlertsView := mkAlertsView {
  violationsAfter : list ViolationEvent;
  recentViolations : list ViolationEvent;
  criticalViolations : nat;
  highViolations : nat;
  totalViolations : nat
}.

(** What a render of the panel computes from its [violations] prop. *)
Definition renderAlertsPanel (violations : list ViolationEvent) : AlertsView :=
  let sorted := newestFirst violations in
  {| violationsAfter := sorted;
     recentViolations := take 20 sorted;
     criticalViolations := length (filter (λ v, severity v = critical) sorted);
     highViolations := length (filter (λ v, severity v = high) sorted);
     totalViolations := length sorted |}.

(** [a] is at least as recent as [b]. *)
Definition notOlder (a b : ViolationEvent) : Prop := timestamp b ≤ timestamp a.

(** ** The status line of the video monitor ([VideoMonitor.getStatusText]) *)

Definition getStatusText (monitoringStatus : MonitoringStatus) : string :=
  if negb (isRecording monitoringStatus) then "Not Recording"
  else if negb (faceDetected monitoringStatus) then "No Face Detected"
  else if (0 <? length (objectsDetected monitoringStatus))%nat
       then "Objects Detected"
  else "Monitoring Active".

(** The rule of the object loop that a lowercased label falls under. *)
Definition objectRule (objectKey : string) : option (ViolationType * Severity) :=
  if includes objectKey "phone" then Some (PHONE_DETECTED, critical)
  else if includes objectKey "book" then Some (BOOK_DETECTED, high)
  else if includes objectKey "laptop" || includes objectKey "tablet"
       then Some (DEVICE_DETECTED, high)
  else None.

(** The label test of [detectObjects]: the class contains an allow-list
    entry, or is contained in one. *)
Definition relatedLabel (class : string) (label : string) : bool :=
  includes (toLowerCase class) label || includes label (toLowerCase class).

(** ** Scoring: proofs *)

Section scoring.
Implicit Types (ty : ViolationType) (s : Severity).
Implicit Types (ps : list (ViolationType * Severity)).
Implicit Types (vs : list ViolationEvent).

Lemma deduction_pos s : 0 < deduction s.
Proof. destruct s; simpl; lia. Qed.

Lemma severityRank_inj s1 s2 : severityRank s1 = severityRank s2 → s1 = s2.
Proof. destruct s1, s2; simpl; intros; congruence || lia. Qed.

Lemma optMax_comm (a b : option Severity) : optMax a b = optMax b a.
Proof. destruct a as [[]|], b as [[]|]; reflexivity. Qed.

Lemma optMax_assoc (a b c : option Severity) :
  optMax a (optMax b c) = optMax (optMax a b) c.
Proof. destruct a as [[]|], b as [[]|], c as [[]|]; reflexivity. Qed.

Lemma optMax_None_r (a : option Severity) : optMax a None = a.
Proof. destruct a; reflexivity. Qed.

Lemma groupMax_cons ty p ps :
  groupMax ty (p :: ps) =
  if decide (p.1 = ty) then optMax (Some p.2) (groupMax ty ps)
  else groupMax ty ps.
Proof. reflexivity. Qed.

Lemma groupMax_app ty ps qs :
  groupMax ty (ps ++ qs) = optMax (groupMax ty ps) (groupMax ty qs).
Proof.
  induction ps as [|p ps IH]; [reflexivity|].
  rewrite <- app_comm_cons, !groupMax_cons, IH.
  case_decide; [|reflexivity]. apply optMax_assoc.
Qed.

Lemma groupMax_perm ty ps qs : ps ≡ₚ qs → groupMax ty ps = groupMax ty qs.
Proof.
  induction 1 as [|p ps qs _ IH|p q ps|ps qs rs _ IH1 _ IH2].
  - reflexivity.
  - rewrite !groupMax_cons, IH. reflexivity.
  - rewrite !groupMax_cons. repeat case_decide; try reflexivity.
    rewrite !optMax_assoc. f_equal. apply optMax_comm.
  - congruence.
Qed.

Lemma groupMax_None_inv ps ty s : (ty, s) ∈ ps → groupMax ty ps = None → False.
Proof.
  induction ps as [|[ty' s0] ps IH]; [intros H; inversion H|].
  rewrite groupMax_cons. simpl.
  intros [[= <- <-]|Hin]%elem_of_cons.
  - rewrite decide_True by reflexivity.
    destruct (groupMax ty ps); discriminate.
  - case_decide; [destruct (groupMax ty ps); discriminate|auto].
Qed.

(** [groupMax] is the maximum of its group. *)
Lemma groupMax_Some ty ps s :
  groupMax ty ps = Some s ↔
  (ty, s) ∈ ps ∧ ∀ s', (ty, s') ∈ ps → severityRank s' ≤ severityRank s.
Proof.
  revert s. induction ps as [|[ty' s0] ps IH]; intros s.
  - split; [discriminate|]. intros [H _]. inversion H.
  - rewrite groupMax_cons. simpl. case_decide as Hty.
    + subst ty'. destruct (groupMax ty ps) as [m|] eqn:Hm; simpl.
      * destruct (IH m) as [IHm _]. destruct (IHm eq_refl) as [Hin Hmax].
        unfold sevMax. split.
        -- intros [= <-]. split.
           ++ case_match; [right; exact Hin | left].
           ++ intros s' [[= ->]|Hs']%elem_of_cons.
              ** case_match; lia.
              ** specialize (Hmax _ Hs'). case_match; lia.
        -- intros [Hs Hall]. f_equal. apply severityRank_inj.
           assert (severityRank s0 ≤ severityRank s) by (apply Hall; left).
           assert (severityRank m ≤ severityRank s) by (apply Hall; right; exact Hin).
           apply elem_of_cons in Hs as [[= ->]|Hs].
           ++ case_match; lia.
           ++ specialize (Hmax _ Hs). case_match; lia.
      * assert (Hnone : ∀ s', (ty, s') ∉ ps).
        { intros s' Hs'. destruct (groupMax_None_inv ps ty s' Hs' Hm). }
        split.
        -- intros [= <-]. split; [left|].
           intros s' [[= ->]|Hs']%elem_of_cons; [lia|].
           destruct (Hnone _ Hs').
        -- intros [[[= ->]|Hs]%elem_of_cons _]; [reflexivity|].
           destruct (Hnone _ Hs).
    + rewrite IH. split; intros [Hin Hall].
      * split; [right; exact Hin|].
        intros s' [[= ? ?]|Hs']%elem_of_cons; [congruence|auto].
      * apply elem_of_cons in Hin as [[= ? ?]|Hin]; [congruence|].
        split; [exact Hin|]. intros s' Hs'. apply Hall. right. exact Hs'.
Qed.

Lemma groupMax_is_Some ty ps : is_Some (groupMax ty ps) ↔ ty ∈ ps.*1.
Proof.
  induction ps as [|[ty' s0] ps IH].
  - split; [intros [? [=]]|intros H; inversion H].
  - rewrite groupMax_cons, fmap_cons, elem_of_cons. simpl. case_decide as Hty.
    + split; [auto|intros _]. destruct (groupMax ty ps); simpl; eauto.
    + rewrite IH. split; [auto|intros [?|?]; congruence || auto].
Qed.

Lemma groupMax_singleton ty p :
  groupMax ty [p] = if decide (p.1 = ty) then Some p.2 else None.
Proof. reflexivity. Qed.

(** The state of the first loop after the whole list: the set is the
    domain of the map, and the map holds the maximum of every group. *)
Lemma scoreFold_spec vs :
  let acc := foldl scoreStep (∅, ∅) vs in
  acc.1 = dom acc.2 ∧ ∀ ty, acc.2 !! ty = groupMax ty (scoreKey <$> vs).
Proof.
  induction vs as [|v vs IH] using rev_ind; simpl.
  - split; [by rewrite dom_empty_L|]. intros ty. apply lookup_empty.
  - rewrite foldl_snoc, fmap_app. simpl in IH.
    destruct (foldl scoreStep (∅, ∅) vs) as [u m]. simpl in IH.
    destruct IH as [-> IH]. unfold scoreStep.
    assert (Hlook : ∀ ty o, m !! vtype v = o →
      optMax o (Some (severity v)) = Some (severity v) →
      <[vtype v := severity v]> m !! ty = groupMax ty ((scoreKey <$> vs) ++ [scoreKey v])).
    { intros ty o Ho Hmax. rewrite groupMax_app, groupMax_singleton. simpl.
      destruct (decide (vtype v = ty)) as [<-|Hne].
      - rewrite lookup_insert_eq, <- IH, Ho. by rewrite Hmax.
      - rewrite lookup_insert_ne by done. by rewrite optMax_None_r. }
    case_decide as Hin.
    + apply elem_of_dom in Hin as [cur Hcur]. rewrite Hcur.
      destruct (severityRank cur <? severityRank (severity v)) eqn:Hlt; simpl.
      * split.
        -- rewrite dom_insert_L. symmetry.
           apply subseteq_union_1_L, singleton_subseteq_l, elem_of_dom. eauto.
        -- intros ty. apply (Hlook ty (Some cur) Hcur). simpl.
           unfold sevMax. by rewrite Hlt.
      * split; [done|]. intros ty.
        rewrite groupMax_app, groupMax_singleton. simpl.
        case_decide as Hty; [subst ty|by rewrite optMax_None_r].
        rewrite <- IH, Hcur. simpl. unfold sevMax. by rewrite Hlt.
    + apply not_elem_of_dom in Hin. simpl. split.
      * by rewrite dom_insert_L.
      * intros ty. by apply (Hlook ty None Hin).
Qed.

Lemma sumZ_perm {A} (f : A → Z) (l k : list A) : l ≡ₚ k → sumZ f l = sumZ f k.
Proof.
  unfold sumZ. induction 1; simpl; lia.
Qed.

Lemma sumZ_ext {A} (f g : A → Z) (l : list A) :
  (∀ x, x ∈ l → f x = g x) → sumZ f l = sumZ g l.
Proof.
  unfold sumZ. induction l as [|x l IH]; intros Hfg; simpl; [done|].
  rewrite Hfg by left. rewrite IH; [done|]. intros y Hy. apply Hfg. by right.
Qed.

Lemma sumZ_nonneg {A} (f : A → Z) (l : list A) :
  (∀ x, 0 ≤ f x) → 0 ≤ sumZ f l.
Proof.
  intros Hf. unfold sumZ. induction l as [|x l IH]; simpl; [lia|].
  specialize (Hf x). lia.
Qed.

(** The second loop adds the deduction of every entry once, whatever the
    order in which the keys are listed. *)
Lemma sumDeductions_keys (m : gmap ViolationType Severity) (keys : list ViolationType) :
  NoDup keys → (∀ k, k ∈ keys ↔ is_Some (m !! k)) →
  sumDeductions m = sumZ (λ k, from_option deduction 0 (m !! k)) keys.
Proof.
  intros Hnd Hkeys. unfold sumDeductions. rewrite map_fold_foldr.
  assert (Hperm : (map_to_list m).*1 ≡ₚ keys).
  { apply NoDup_Permutation; [apply NoDup_fst_map_to_list|done|].
    intros k. rewrite Hkeys, list_elem_of_fmap. split.
    - intros [[k' x] [-> Hx%elem_of_map_to_list]]. eauto.
    - intros [x Hx]. exists (k, x). split; [done|]. by apply elem_of_map_to_list. }
  rewrite <- (sumZ_perm _ _ _ Hperm).
  assert (Hgen : ∀ l : list (ViolationType * Severity),
    (∀ k x, (k, x) ∈ l → m !! k = Some x) →
    foldr (uncurry (λ (_ : ViolationType) sev deductions, deductions + deduction sev)) 0 l
    = sumZ (λ k, from_option deduction 0 (m !! k)) (l.*1)).
  { induction l as [|[k x] l IH]; intros Hl; simpl; [done|].
    rewrite IH by (intros; apply Hl; by right).
    rewrite (Hl k x) by left. simpl. apply Z.add_comm. }
  apply Hgen. intros k x. apply elem_of_map_to_list.
Qed.

Lemma groupDeduction_nonneg ps ty : 0 ≤ groupDeduction ps ty.
Proof.
  unfold groupDeduction. destruct (groupMax ty ps) as [s|]; simpl; [|lia].
  pose proof (deduction_pos s). lia.
Qed.

(** The code computes the reference score. *)
Lemma calculateIntegrityScore_reference vs :
  calculateIntegrityScore vs = referenceScore vs.
Proof.
  unfold calculateIntegrityScore, referenceScore, referenceScoreOfPairs.
  pose proof (scoreFold_spec vs) as [_ Hm]. simpl in Hm.
  destruct (foldl scoreStep (∅, ∅) vs) as [u m]. simpl in Hm.
  set (ps := scoreKey <$> vs) in *.
  rewrite (sumDeductions_keys m (remove_dups ps.*1)).
  - rewrite (sumZ_ext _ (groupDeduction ps)).
    + pose proof (sumZ_nonneg (groupDeduction ps) (remove_dups ps.*1)
                    (groupDeduction_nonneg ps)).
      unfold clamp. lia.
    + intros ty _. unfold groupDeduction. by rewrite Hm.
  - apply NoDup_remove_dups.
  - intros k. rewrite elem_of_remove_dups, Hm. symmetry. apply groupMax_is_Some.
Qed.

Lemma referenceScoreOfPairs_perm ps qs :
  ps ≡ₚ qs → referenceScoreOfPairs ps = referenceScoreOfPairs qs.
Proof.
  intros Hperm. unfold referenceScoreOfPairs. f_equal. f_equal.
  rewrite (sumZ_ext (groupDeduction ps) (groupDeduction qs)).
  - apply sumZ_perm, NoDup_Permutation; try apply NoDup_remove_dups.
    intros ty. rewrite !elem_of_remove_dups. by rewrite Hperm.
  - intros ty _. unfold groupDeduction. by rewrite (groupMax_perm ty ps qs).
Qed.

(** Lists with the same group maxima get the same score: the map the
    first loop builds is the same. *)
Lemma calculateIntegrityScore_groupMax vs vs' :
  (∀ ty, groupMax ty (scoreKey <$> vs) = groupMax ty (scoreKey <$> vs')) →
  calculateIntegrityScore vs = calculateIntegrityScore vs'.
Proof.
  intros Hg. unfold calculateIntegrityScore.
  pose proof (scoreFold_spec vs) as [_ Hm].
  pose proof (scoreFold_spec vs') as [_ Hm']. simpl in Hm, Hm'.
  destruct (foldl scoreStep (∅, ∅) vs) as [u m].
  destruct (foldl scoreStep (∅, ∅) vs') as [u' m']. simpl in Hm, Hm'.
  assert (m = m') as ->; [|done].
  apply map_eq. intros ty. by rewrite Hm, Hm', Hg.
Qed.

Lemma calculateIntegrityScore_bounds vs : 0 ≤ calculateIntegrityScore vs ≤ 100.
Proof.
  rewrite calculateIntegrityScore_reference.
  unfold referenceScore, referenceScoreOfPairs, clamp. lia.
Qed.

(** A later event of a type already seen with at least its severity does
    not move the group's maximum. *)
Lemma groupMax_absorb ty ps t s s0 :
  (t, s0) ∈ ps → severityRank s ≤ severityRank s0 →
  groupMax ty (ps ++ [(t, s)]) = groupMax ty ps.
Proof.
  intros Hin Hle. rewrite groupMax_app, groupMax_singleton. simpl.
  case_decide as Hty; [subst t|apply optMax_None_r].
  destruct (groupMax ty ps) as [m|] eqn:Hm.
  - apply groupMax_Some in Hm as [_ Hmax]. specialize (Hmax _ Hin).
    simpl. unfold sevMax. case_match; [|done].
    f_equal. apply severityRank_inj. lia.
  - destruct (groupMax_None_inv _ _ _ Hin Hm).
Qed.

End scoring.

(** The model computes: one event of each of three types, critical, high
    and medium, costs 20 + 10 + 5; a second, weaker phone event costs
    nothing more. *)
Example score_three_types :
  calculateIntegrityScore
    [phoneCritical; newViolation (t0 + 20000) FACE_NOT_VISIBLE "no face" high; awayMedium]
  = 65.
Proof. reflexivity. Qed.

Example score_duplicate_type :
  calculateIntegrityScore [phoneHigh; awayMedium; phoneCritical; phoneHigh] = 75.
Proof. reflexivity. Qed.

(** ** Claims about the score *)

(** C1. For every list of violation events [calculateIntegrityScore]
    returns the reference score (group by type, keep the maximum severity
    of each type, add the deductions low=2, medium=5, high=10, critical=20
    of these maxima, clamp [100 - total] to [0, 100]); in particular the
    result lies between 0 and 100. *)
Theorem calculateIntegrityScore_correct (violations : list ViolationEvent) :
  calculateIntegrityScore violations = referenceScore violations
  ∧ 0 ≤ calculateIntegrityScore violations ≤ 100.
Proof.
  split.
  - apply calculateIntegrityScore_reference.
  - apply calculateIntegrityScore_bounds.
Qed.

(** C2. The score is the same on a list and on any permutation of it, and
    appending an event whose type already occurs with a severity at least
    as high does not change the score. *)
Theorem calculateIntegrityScore_stable
    (vs vs' : list ViolationEvent) (u v : ViolationEvent) :
  (vs ≡ₚ vs' → calculateIntegrityScore vs = calculateIntegrityScore vs')
  ∧ (u ∈ vs → vtype u = vtype v →
     severityRank (severity v) ≤ severityRank (severity u) →
     calculateIntegrityScore (vs ++ [v]) = calculateIntegrityScore vs).
Proof.
  split.
  - intros Hperm. apply calculateIntegrityScore_groupMax. intros ty.
    apply groupMax_perm. by apply fmap_Permutation.
  - intros Hu Hty Hle. apply calculateIntegrityScore_groupMax. intros ty.
    rewrite fmap_app. simpl. unfold scoreKey at 2.
    apply (groupMax_absorb ty _ _ _ (severity u)); [|done].
    rewrite <- Hty. change (scoreKey u ∈ scoreKey <$> vs).
    by apply list_elem_of_fmap_2.
Qed.

(** C9. The score depends on the events only through their (type,
    severity) pairs, taken as a multiset: two lists that agree event by
    event on type and severity, or whose pairs are a rearrangement of each
    other, get the same score whatever their ids, timestamps, descriptions
    and durations. *)
Theorem calculateIntegrityScore_only_type_severity
    (vs1 vs2 : list ViolationEvent) :
  (Forall2 (λ a b, vtype a = vtype b ∧ severity a = severity b) vs1 vs2 →
   calculateIntegrityScore vs1 = calculateIntegrityScore vs2)
  ∧ (scoreKey <$> vs1 ≡ₚ scoreKey <$> vs2 →
     calculateIntegrityScore vs1 = calculateIntegrityScore vs2).
Proof.
  assert (Hperm : scoreKey <$> vs1 ≡ₚ scoreKey <$> vs2 →
                  calculateIntegrityScore vs1 = calculateIntegrityScore vs2).
  { intros Hp. apply calculateIntegrityScore_groupMax. intros ty.
    by apply groupMax_perm. }
  split; [|exact Hperm].
  intros Hagree. apply Hperm.
  assert (scoreKey <$> vs1 = scoreKey <$> vs2) as ->; [|done].
  clear Hperm. induction Hagree as [|a b l1 l2 [Ht Hs] _ IH]; [done|].
  rewrite !fmap_cons, IH. unfold scoreKey at 1 3. by rewrite Ht, Hs.
Qed.

(** ** Timers: the invariant of the debounce state *)

Section list_facts.
Context {A B : Type} (f : A → B).

Lemma NoDup_fmap_filter (P : A → Prop) `{!∀ x, Decision (P x)} (l : list A) :
  NoDup (f <$> l) → NoDup (f <$> filter P l).
Proof.
  induction l as [|x l IH]; [done|].
  rewrite fmap_cons, NoDup_cons, filter_cons. intros [Hx Hl].
  case_decide; [|auto].
  rewrite fmap_cons, NoDup_cons. split; [|auto].
  intros (y & Hfy & Hy%list_elem_of_filter)%list_elem_of_fmap.
  apply Hx. rewrite Hfy. apply list_elem_of_fmap_2. tauto.
Qed.

Lemma NoDup_fmap_eq (l : list A) (x y : A) :
  NoDup (f <$> l) → x ∈ l → y ∈ l → f x = f y → x = y.
Proof.
  induction l as [|z l IH]; [by intros _ ?%elem_of_nil|].
  rewrite fmap_cons, NoDup_cons. intros [Hz Hl].
  intros [->|Hx]%elem_of_cons [->|Hy]%elem_of_cons Hf; [done| | |by apply IH].
  - destruct Hz. rewrite Hf. by apply list_elem_of_fmap_2.
  - destruct Hz. rewrite <- Hf. by apply list_elem_of_fmap_2.
Qed.

Lemma NoDup_fmap_const_length (l : list A) (c : B) :
  NoDup (f <$> l) → (∀ x, x ∈ l → f x = c) → (length l ≤ 1)%nat.
Proof.
  destruct l as [|x [|y l]]; simpl; [lia|lia|].
  rewrite !NoDup_cons. intros [Hx _] Hc. destruct Hx.
  rewrite (Hc x) by left. rewrite <- (Hc y) by (right; left). left.
Qed.

End list_facts.

Section timers.
Implicit Types (st : Hook) (ty : ViolationType) (t : PendingTimer).
Implicit Types (h : positive) (now : Z).

Lemma elem_of_clearTimeout t h (queue : list PendingTimer) :
  t ∈ clearTimeout h queue ↔ thandle t ≠ h ∧ t ∈ queue.
Proof. unfold clearTimeout. by rewrite list_elem_of_filter. Qed.

(** *** Operations that leave the timers alone *)

Lemma addViolation_timerView now ty d s st :
  timerView (addViolation now ty d s st) = timerView st.
Proof. unfold addViolation. by case_match. Qed.

Lemma processObject_timerView now obj st :
  timerView (processObject now obj st) = timerView st.
Proof.
  unfold processObject. repeat case_match; try done;
    unfold timerView; simpl; apply addViolation_timerView.
Qed.

Lemma processObjects_timerView now objs st :
  timerView (foldl (λ acc obj, processObject now obj acc) st objs) = timerView st.
Proof.
  revert st. induction objs as [|obj objs IH]; intros st; simpl; [done|].
  by rewrite IH, processObject_timerView.
Qed.

Lemma processMultipleFaces_timerView now face st :
  timerView (processMultipleFaces now face st) = timerView st.
Proof.
  unfold processMultipleFaces. case_match; [|done]. apply addViolation_timerView.
Qed.

(** *** Coherence is kept by every operation *)

Lemma useProctoring_coherent name now : timersCoherent (useProctoring name now).
Proof.
  repeat split; simpl.
  - by intros t ?%elem_of_nil.
  - intros ty h. by rewrite lookup_empty.
  - constructor.
  - by intros t ?%elem_of_nil.
Qed.

Lemma handleViolationTimeout_coherent now ty d s delay st :
  timersCoherent st → timersCoherent (handleViolationTimeout now ty d s delay st).
Proof.
  unfold handleViolationTimeout. case_decide as Hty; [done|].
  assert (Hnone : violationTimeouts st !! ty = None).
  { destruct (violationTimeouts st !! ty) eqn:E; [|done]. destruct Hty. eauto. }
  unfold timersCoherent, timerView. simpl.
  intros (Hq & Hm & Hnd & Hfresh). repeat split.
  - intros t [Ht|Ht]%elem_of_app; simpl.
    + specialize (Hq t Ht). rewrite lookup_insert_ne; [done|]. congruence.
    + apply list_elem_of_singleton in Ht as ->. simpl. by rewrite lookup_insert_eq.
  - intros ty' h. destruct (decide (ty = ty')) as [<-|Hne].
    + rewrite lookup_insert_eq. intros [= <-].
      exists (mkTimer (nextHandle st) (now + delay) ty d s). split; [|done].
      apply elem_of_app. right. by left.
    + rewrite lookup_insert_ne by done. intros (t & Ht & ? & ?)%Hm.
      exists t. split; [|done]. apply elem_of_app. by left.
  - rewrite fmap_app. apply NoDup_app. split; [done|]. split.
    + intros h (t & -> & Ht)%list_elem_of_fmap Heq%list_elem_of_singleton.
      simpl in Heq. specialize (Hfresh t Ht). lia.
    + apply NoDup_singleton.
  - intros t [Ht|Ht]%elem_of_app; simpl.
    + specialize (Hfresh t Ht). lia.
    + apply list_elem_of_singleton in Ht as ->. simpl. lia.
Qed.

(** Removing the timer recorded for [ty] from both the map and the queue. *)
Lemma cancel_coherent ty h timeouts queue next :
  timeouts !! ty = Some h →
  coherentView (timeouts, queue, next) →
  coherentView (delete ty timeouts, clearTimeout h queue, next).
Proof.
  intros Hty (Hq & Hm & Hnd & Hfresh). repeat split.
  - intros t [Hh Ht]%elem_of_clearTimeout. specialize (Hq t Ht).
    rewrite lookup_delete_ne; [done|]. intros Heq. rewrite Heq in Hty. congruence.
  - intros ty' h'. destruct (decide (ty = ty')) as [<-|Hne].
    + by rewrite lookup_delete_eq.
    + rewrite lookup_delete_ne by done. intros Hty'.
      destruct (Hm _ _ Hty') as (t & Ht & Htt & Hth).
      exists t. split; [|done]. apply elem_of_clearTimeout. split; [|done].
      intros Heq. destruct (Hm _ _ Hty) as (t0 & Ht0 & Htt0 & Hth0).
      assert (t = t0) by (apply (NoDup_fmap_eq thandle queue); congruence).
      congruence.
  - by apply NoDup_fmap_filter.
  - intros t [_ Ht]%elem_of_clearTimeout. auto.
Qed.

Lemma clearViolationTimeout_coherent ty st :
  timersCoherent st → timersCoherent (clearViolationTimeout ty st).
Proof.
  unfold clearViolationTimeout. destruct (violationTimeouts st !! ty) eqn:Hty; [|done].
  intros Hc. by apply cancel_coherent.
Qed.

Lemma fireTimer_inv h now st st' :
  fireTimer h now st = Some st' →
  ∃ t, t ∈ pendingTimers st ∧ thandle t = h ∧ tdue t ≤ now ∧
       timerView st' = (delete (ttype t) (violationTimeouts st),
                        clearTimeout h (pendingTimers st), nextHandle st) ∧
       sessionData st' =
         sessionData (addViolation now (ttype t) (tdescription t) (tseverity t) st) ∧
       objectCooldowns st' = objectCooldowns st.
Proof.
  unfold fireTimer.
  destruct (list_find _ _) as [[i t]|] eqn:Hfind; [|done].
  apply list_find_Some in Hfind as (Hi & Hh & _).
  destruct (tdue t <=? now) eqn:Hdue; [|done]. intros [= <-].
  exists t. split; [by eapply list_elem_of_lookup_2|].
  split; [done|]. split; [lia|].
  unfold timerView, addViolation, lastEmission. simpl.
  destruct (_ <? _); simpl; repeat split; reflexivity.
Qed.

Lemma fireTimer_coherent h now st st' :
  fireTimer h now st = Some st' → timersCoherent st → timersCoherent st'.
Proof.
  intros (t & Ht & Hh & _ & Hview & _)%fireTimer_inv Hc.
  unfold timersCoherent. rewrite Hview. apply cancel_coherent; [|done].
  destruct Hc as (Hq & _). rewrite <- Hh. by apply Hq.
Qed.

(** [violationTimeouts.forEach(clearTimeout)] removes exactly the timers
    whose handle is in the map. *)
Lemma elem_of_clearAll t (timeouts : gmap ViolationType positive)
    (queue : list PendingTimer) :
  t ∈ map_fold (λ _ timeout q, clearTimeout timeout q) queue timeouts ↔
  t ∈ queue ∧ ∀ ty h, timeouts !! ty = Some h → thandle t ≠ h.
Proof.
  rewrite map_fold_foldr.
  assert (Hgen : ∀ l : list (ViolationType * positive),
    t ∈ foldr (uncurry (λ (_ : ViolationType) timeout q, clearTimeout timeout q))
          queue l
    ↔ t ∈ queue ∧ ∀ ty h, (ty, h) ∈ l → thandle t ≠ h).
  { induction l as [|[ty h] l IH]; simpl.
    - split; [intros ?; split; [done|]; by intros ?? ?%elem_of_nil|tauto].
    - rewrite elem_of_clearTimeout, IH. split.
      + intros (Hh & Ht & Hl). split; [done|].
        intros ty' h' [[= -> ->]|?]%elem_of_cons; eauto.
      + intros [Ht Hl]. split; [apply (Hl ty); left|].
        split; [done|]. intros ty' h' ?. apply (Hl ty'). by right. }
  rewrite Hgen. by setoid_rewrite elem_of_map_to_list.
Qed.

Lemma stopMonitoring_timerView now st :
  timersCoherent st → timerView (stopMonitoring now st) = (∅, [], nextHandle st).
Proof.
  intros (Hq & _). unfold timerView, stopMonitoring. simpl. f_equal. f_equal.
  apply elem_of_nil_inv. intros t [Ht Hall]%elem_of_clearAll.
  by apply (Hall _ _ (Hq t Ht)).
Qed.

Lemma stopMonitoring_coherent now st :
  timersCoherent st → timersCoherent (stopMonitoring now st).
Proof.
  intros Hc. unfold timersCoherent. rewrite stopMonitoring_timerView by done.
  repeat split.
  - by intros t ?%elem_of_nil.
  - intros ty h. by rewrite lookup_empty.
  - constructor.
  - by intros t ?%elem_of_nil.
Qed.

Lemma processFrame_coherent now face objs st :
  timersCoherent st → timersCoherent (processFrame now face objs st).
Proof.
  intros Hc. unfold processFrame, processDetectionResults, timersCoherent.
  rewrite processObjects_timerView.
  set (st1 := withStatus _ st).
  assert (H1 : timersCoherent st1) by exact Hc.
  assert (H2 : timersCoherent (processFaceVisibility now face st1)).
  { unfold processFaceVisibility. case_match.
    - by apply handleViolationTimeout_coherent.
    - by apply clearViolationTimeout_coherent. }
  assert (H3 : timersCoherent
            (processMultipleFaces now face (processFaceVisibility now face st1))).
  { unfold timersCoherent. by rewrite processMultipleFaces_timerView. }
  unfold processLookingAway.
  repeat case_match;
    by (apply handleViolationTimeout_coherent || apply clearViolationTimeout_coherent).
Qed.

Lemma step_coherent st e : timersCoherent st → timersCoherent (step st e).
Proof.
  intros Hc. destruct e as [now|now|now face objs|h now|now ty d s]; simpl.
  - exact Hc.
  - by apply stopMonitoring_coherent.
  - by apply processFrame_coherent.
  - destruct (fireTimer h now st) eqn:Hf; [|done]. by eapply fireTimer_coherent.
  - unfold timersCoherent. by rewrite addViolation_timerView.
Qed.

Lemma run_coherent st events : timersCoherent st → timersCoherent (run st events).
Proof.
  revert st. induction events as [|e events IH]; intros st Hc; [done|].
  apply IH. by apply step_coherent.
Qed.

(** Every state a mounted hook reaches is coherent. *)
Lemma reachable_coherent (name : string) (created : Z) (events : list Event) :
  timersCoherent (run (useProctoring name created) events).
Proof. apply run_coherent, useProctoring_coherent. Qed.

(** *** Consequences of coherence *)

Lemma coherent_timersOf_length ty st :
  timersCoherent st → (length (timersOf ty st) ≤ 1)%nat.
Proof.
  intros (Hq & _ & Hnd & _). unfold timersOf.
  destruct (violationTimeouts st !! ty) as [h|] eqn:Hty.
  - apply (NoDup_fmap_const_length thandle _ h).
    + by apply NoDup_fmap_filter.
    + intros t [Htt Ht]%list_elem_of_filter. specialize (Hq t Ht). congruence.
  - assert (filter (λ t, ttype t = ty) (pendingTimers st) = []) as ->; [|simpl; lia].
    apply elem_of_nil_inv. intros t [Htt Ht]%list_elem_of_filter.
    specialize (Hq t Ht). congruence.
Qed.

Lemma coherent_timersOf_pending ty st :
  timersCoherent st → (timersOf ty st ≠ [] ↔ is_Some (violationTimeouts st !! ty)).
Proof.
  intros (Hq & Hm & _). unfold timersOf. split.
  - destruct (filter _ _) as [|t l] eqn:Hf; [done|]. intros _.
    assert (Ht : t ∈ filter (λ t, ttype t = ty) (pendingTimers st))
      by (rewrite Hf; left).
    apply list_elem_of_filter in Ht as [<- Ht]. eauto.
  - intros [h (t & Ht & Htt & _)%Hm] Hnil.
    assert (Hin : t ∈ filter (λ t, ttype t = ty) (pendingTimers st))
      by (by apply list_elem_of_filter).
    rewrite Hnil in Hin. by apply elem_of_nil in Hin.
Qed.

(** *** A cancelled handle stays dead *)

Lemma handleDead_shrink h st st' :
  (∀ t, t ∈ pendingTimers st' → t ∈ pendingTimers st) →
  nextHandle st' = nextHandle st →
  handleDead h st → handleDead h st'.
Proof. intros Hsub Hnext [Hq Hlt]. split; [auto|]. by rewrite Hnext. Qed.

Lemma handleDead_timerView h st st' :
  timerView st' = timerView st → handleDead h st → handleDead h st'.
Proof.
  intros [= _ Hq Hn]. apply handleDead_shrink; [|done]. intros t. by rewrite Hq.
Qed.

Lemma handleViolationTimeout_dead h now ty d s delay st :
  handleDead h st → handleDead h (handleViolationTimeout now ty d s delay st).
Proof.
  unfold handleViolationTimeout. case_decide; [done|].
  intros [Hq Hlt]. split; simpl; [|lia].
  intros t [Ht|Ht]%elem_of_app; [auto|].
  apply list_elem_of_singleton in Ht as ->. simpl. lia.
Qed.

Lemma clearViolationTimeout_dead h ty st :
  handleDead h st → handleDead h (clearViolationTimeout ty st).
Proof.
  unfold clearViolationTimeout. case_match; [|done].
  apply handleDead_shrink; [|done]. simpl. by intros t [_ ?]%elem_of_clearTimeout.
Qed.

Lemma stopMonitoring_dead h now st :
  handleDead h st → handleDead h (stopMonitoring now st).
Proof.
  apply handleDead_shrink; [|done]. simpl. by intros t [? _]%elem_of_clearAll.
Qed.

Lemma fireTimer_dead h h' now st st' :
  fireTimer h' now st = Some st' → handleDead h st → handleDead h st'.
Proof.
  intros (t & _ & _ & _ & [= _ Hq Hn] & _)%fireTimer_inv.
  apply handleDead_shrink; [|done]. rewrite Hq. by intros ? [_ ?]%elem_of_clearTimeout.
Qed.

Lemma processFrame_dead h now face objs st :
  handleDead h st → handleDead h (processFrame now face objs st).
Proof.
  intros Hd. unfold processFrame, processDetectionResults.
  apply (handleDead_timerView _ _ _ (processObjects_timerView _ _ _)).
  set (st1 := withStatus _ st).
  assert (H1 : handleDead h st1) by exact Hd.
  assert (H2 : handleDead h (processFaceVisibility now face st1)).
  { unfold processFaceVisibility. case_match.
    - by apply handleViolationTimeout_dead.
    - by apply clearViolationTimeout_dead. }
  assert (H3 : handleDead h
            (processMultipleFaces now face (processFaceVisibility now face st1))).
  { by apply (handleDead_timerView _ _ _ (processMultipleFaces_timerView _ _ _)). }
  unfold processLookingAway.
  repeat case_match;
    by (apply handleViolationTimeout_dead || apply clearViolationTimeout_dead).
Qed.

Lemma step_dead h st e : handleDead h st → handleDead h (step st e).
Proof.
  intros Hd. destruct e as [now|now|now face objs|h' now|now ty d s]; simpl.
  - exact Hd.
  - by apply stopMonitoring_dead.
  - by apply processFrame_dead.
  - destruct (fireTimer h' now st) eqn:Hf; [|done]. by eapply fireTimer_dead.
  - by apply (handleDead_timerView _ _ _ (addViolation_timerView _ _ _ _ _)).
Qed.

Lemma run_dead h st events : handleDead h st → handleDead h (run st events).
Proof.
  revert st. induction events as [|e events IH]; intros st Hd; [done|].
  apply IH. by apply step_dead.
Qed.

(** A dead handle cannot fire. *)
Lemma fireTimer_dead_None h now st : handleDead h st → fireTimer h now st = None.
Proof.
  intros [Hq _]. unfold fireTimer.
  destruct (list_find _ _) as [[i t]|] eqn:Hfind; [|done].
  apply list_find_Some in Hfind as (Hi & Hh & _).
  destruct (Hq t); [by eapply list_elem_of_lookup_2|done].
Qed.

Lemma clearViolationTimeout_kills ty t st :
  timersCoherent st → t ∈ pendingTimers st → ttype t = ty →
  handleDead (thandle t) (clearViolationTimeout ty st).
Proof.
  intros (Hq & _ & _ & Hfresh) Ht Hty. unfold clearViolationTimeout.
  rewrite <- Hty, (Hq t Ht). split; simpl; [|auto].
  by intros t' [? _]%elem_of_clearTimeout.
Qed.

Lemma stopMonitoring_kills now t st :
  timersCoherent st → t ∈ pendingTimers st →
  handleDead (thandle t) (stopMonitoring now st).
Proof.
  intros Hc Ht. pose proof (stopMonitoring_timerView now st Hc) as Hv.
  assert (Hq : pendingTimers (stopMonitoring now st) = []).
  { change (pendingTimers (stopMonitoring now st))
      with (timerView (stopMonitoring now st)).1.2. by rewrite Hv. }
  revert Hc. intros (_ & _ & _ & Hfresh).
  split; [|simpl; auto]. rewrite Hq. by intros t' ?%elem_of_nil.
Qed.

(** *** When only time passes *)

Lemma addViolation_violationsOf_ne ty ty' now d s st :
  ty' ≠ ty → violationsOf ty (addViolation now ty' d s st) = violationsOf ty st.
Proof.
  intros Hne. unfold violationsOf, addViolation. case_match; [done|]. simpl.
  rewrite filter_app, filter_cons_False by done. apply app_nil_r.
Qed.

Lemma fire_violationsOf ty h now st :
  (∀ t, t ∈ pendingTimers st → ttype t ≠ ty) →
  (∀ t, t ∈ pendingTimers (step st (EFire h now)) → ttype t ≠ ty)
  ∧ violationsOf ty (step st (EFire h now)) = violationsOf ty st.
Proof.
  intros Hno. simpl. destruct (fireTimer h now st) as [st'|] eqn:Hf; [|done].
  apply fireTimer_inv in Hf as (t & Ht & _ & _ & [= _ Hq _] & Hsess & _).
  simpl. split.
  - rewrite Hq. intros t' [_ ?]%elem_of_clearTimeout. auto.
  - unfold violationsOf. rewrite Hsess.
    by apply (addViolation_violationsOf_ne ty (ttype t)), Hno.
Qed.

Lemma firings_violationsOf ty fs st :
  (∀ t, t ∈ pendingTimers st → ttype t ≠ ty) →
  violationsOf ty (run st (firings fs)) = violationsOf ty st.
Proof.
  revert st. induction fs as [|[h now] fs IH]; intros st Hno; [done|].
  destruct (fire_violationsOf ty h now st Hno) as [Hno' Heq].
  unfold firings, run. rewrite fmap_cons. simpl foldl.
  etrans; [apply IH, Hno'|exact Heq].
Qed.

Lemma firings_idle fs st : pendingTimers st = [] → run st (firings fs) = st.
Proof.
  intros Hq. induction fs as [|[h now] fs IH]; [done|].
  unfold firings, run. rewrite fmap_cons. simpl.
  unfold fireTimer. rewrite Hq. simpl. exact IH.
Qed.

Lemma clearViolationTimeout_none_of_type ty st :
  timersCoherent st →
  ∀ t, t ∈ pendingTimers (clearViolationTimeout ty st) → ttype t ≠ ty.
Proof.
  intros (Hq & _) t. unfold clearViolationTimeout.
  destruct (violationTimeouts st !! ty) as [h|] eqn:Hty; simpl.
  - intros [Hh Ht]%elem_of_clearTimeout Heq. specialize (Hq t Ht).
    rewrite Heq in Hq. congruence.
  - intros Ht Heq. specialize (Hq t Ht). rewrite Heq in Hq. congruence.
Qed.

End timers.

(** ** Claims about the debounce timers *)

(** C5. In every state the hook reaches there is at most one pending
    debounce timer per violation type; asking for a timer of a type that
    has one pending changes nothing (the pending timer keeps its due
    time), and cancelling the timer of a type that has none pending
    changes nothing. *)
Theorem debounce_one_timer_per_type
    (name : string) (created : Z) (events : list Event) (type : ViolationType) :
  let st := run (useProctoring name created) events in
  (length (timersOf type st) ≤ 1)%nat
  ∧ (timersOf type st ≠ [] →
     ∀ now description severity delay,
       handleViolationTimeout now type description severity delay st = st)
  ∧ (timersOf type st = [] → clearViolationTimeout type st = st).
Proof.
  intros st. pose proof (reachable_coherent name created events) as Hc.
  fold st in Hc. split; [by apply coherent_timersOf_length|]. split.
  - intros Hpending%(coherent_timersOf_pending _ _ Hc) now d s delay.
    unfold handleViolationTimeout. by rewrite decide_True.
  - intros Hnone. unfold clearViolationTimeout.
    destruct (violationTimeouts st !! type) as [h|] eqn:Hty; [|done].
    assert (Hp : timersOf type st ≠ []) by (apply coherent_timersOf_pending; eauto).
    by destruct Hp.
Qed.

(** C7. A debounce timer that is cancelled while pending, by
    [clearViolationTimeout] or by [stopMonitoring], never fires
    afterwards, whatever happens next and however late; and as time
    passes after the cancellation no violation it would have emitted
    enters the timeline. *)
Theorem cancelled_timer_never_emits
    (name : string) (created : Z) (events : list Event) (timer : PendingTimer) :
  let st := run (useProctoring name created) events in
  timer ∈ pendingTimers st →
  (∀ later now,
     fireTimer (thandle timer) now
       (run (clearViolationTimeout (ttype timer) st) later) = None)
  ∧ (∀ fs,
       violationsOf (ttype timer)
         (run (clearViolationTimeout (ttype timer) st) (firings fs))
       = violationsOf (ttype timer) st)
  ∧ (∀ stopped later now,
       fireTimer (thandle timer) now (run (stopMonitoring stopped st) later) = None)
  ∧ (∀ stopped fs,
       violations (sessionData (run (stopMonitoring stopped st) (firings fs)))
       = violations (sessionData st)).
Proof.
  intros st Hin. pose proof (reachable_coherent name created events) as Hc.
  fold st in Hc. repeat split.
  - intros later now. apply fireTimer_dead_None, run_dead.
    by apply clearViolationTimeout_kills.
  - intros fs. rewrite firings_violationsOf.
    + unfold violationsOf, clearViolationTimeout. by case_match.
    + by apply clearViolationTimeout_none_of_type.
  - intros stopped later now. apply fireTimer_dead_None, run_dead.
    by apply stopMonitoring_kills.
  - intros stopped fs. rewrite firings_idle; [done|].
    pose proof (stopMonitoring_timerView stopped st Hc) as Hv.
    change (pendingTimers (stopMonitoring stopped st))
      with (timerView (stopMonitoring stopped st)).1.2. by rewrite Hv.
Qed.

(** ** What the operations leave alone *)

Section frames.
Implicit Types (st : Hook) (ty : ViolationType) (now : Z).

Lemma addViolation_status now ty d s st :
  monitoringStatus (addViolation now ty d s st) = monitoringStatus st.
Proof. unfold addViolation. by case_match. Qed.

Lemma addViolation_objectCooldowns now ty d s st :
  objectCooldowns (addViolation now ty d s st) = objectCooldowns st.
Proof. unfold addViolation. by case_match. Qed.

Lemma handleViolationTimeout_rest now ty d s delay st :
  let st' := handleViolationTimeout now ty d s delay st in
  monitoringStatus st' = monitoringStatus st
  ∧ objectCooldowns st' = objectCooldowns st
  ∧ sessionData st' = sessionData st.
Proof. unfold handleViolationTimeout. by case_decide. Qed.

Lemma clearViolationTimeout_rest ty st :
  let st' := clearViolationTimeout ty st in
  monitoringStatus st' = monitoringStatus st
  ∧ objectCooldowns st' = objectCooldowns st
  ∧ sessionData st' = sessionData st.
Proof. unfold clearViolationTimeout. by case_match. Qed.

Lemma processObject_status now obj st :
  monitoringStatus (processObject now obj st) = monitoringStatus st.
Proof.
  unfold processObject. repeat case_match; try done; simpl;
    apply addViolation_status.
Qed.

(** An object only writes the cooldown entry of its own label, and only
    when its label has a keyword. *)
Lemma processObject_objectCooldowns now obj st key :
  hasKeyword key = false →
  objectCooldowns (processObject now obj st) !! key = objectCooldowns st !! key.
Proof.
  intros Hkey. unfold processObject. cbv zeta.
  assert (Hne : hasKeyword (toLowerCase (object obj)) = true →
                toLowerCase (object obj) ≠ key) by (intros H Heq; rewrite Heq in H; congruence).
  unfold hasKeyword in Hne.
  destruct (30000 <? _); [|done].
  destruct (includes (toLowerCase (object obj)) "phone") eqn:E1; simpl in *.
  { rewrite lookup_insert_ne by auto. by rewrite addViolation_objectCooldowns. }
  destruct (includes (toLowerCase (object obj)) "book") eqn:E2; simpl in *.
  { rewrite lookup_insert_ne by auto. by rewrite addViolation_objectCooldowns. }
  destruct (includes (toLowerCase (object obj)) "laptop"
            || includes (toLowerCase (object obj)) "tablet") eqn:E3; simpl in *.
  { rewrite lookup_insert_ne by auto. by rewrite addViolation_objectCooldowns. }
  done.
Qed.

Lemma processObject_no_keyword now obj st :
  hasKeyword (toLowerCase (object obj)) = false → processObject now obj st = st.
Proof.
  unfold hasKeyword, processObject. cbv zeta. intros Hkey.
  apply orb_false_elim in Hkey as [Hkey ->].
  apply orb_false_elim in Hkey as [Hkey ->].
  apply orb_false_elim in Hkey as [-> ->]. simpl. by case_match.
Qed.

Lemma processObjects_status now objs st :
  monitoringStatus (foldl (λ acc obj, processObject now obj acc) st objs)
  = monitoringStatus st.
Proof.
  revert st. induction objs as [|obj objs IH]; intros st; simpl; [done|].
  by rewrite IH, processObject_status.
Qed.

Lemma processObjects_objectCooldowns now objs st key :
  hasKeyword key = false →
  objectCooldowns (foldl (λ acc obj, processObject now obj acc) st objs) !! key
  = objectCooldowns st !! key.
Proof.
  intros Hkey. revert st. induction objs as [|obj objs IH]; intros st; simpl; [done|].
  by rewrite IH, processObject_objectCooldowns.
Qed.

Lemma processObjects_filter now objs st :
  foldl (λ acc obj, processObject now obj acc) st objs
  = foldl (λ acc obj, processObject now obj acc) st
      (filter (λ o, hasKeyword (toLowerCase (object o)) = true) objs).
Proof.
  revert st. induction objs as [|obj objs IH]; intros st; [done|].
  rewrite filter_cons. case_decide as Hk; simpl.
  - apply IH.
  - apply not_true_is_false in Hk.
    rewrite processObject_no_keyword by done. apply IH.
Qed.

(** The face rules touch neither the status nor the object cooldowns. *)
Lemma faceRules_rest now face st :
  let st' := processLookingAway now face
               (processMultipleFaces now face (processFaceVisibility now face st)) in
  monitoringStatus st' = monitoringStatus st
  ∧ objectCooldowns st' = objectCooldowns st.
Proof.
  simpl.
  assert (H1 : monitoringStatus (processFaceVisibility now face st) = monitoringStatus st
             ∧ objectCooldowns (processFaceVisibility now face st) = objectCooldowns st).
  { unfold processFaceVisibility. case_match.
    - by destruct (handleViolationTimeout_rest now FACE_NOT_VISIBLE
        "Candidate's face is not visible for more than 10 seconds" high 10000 st)
        as (? & ? & _).
    - by destruct (clearViolationTimeout_rest FACE_NOT_VISIBLE st) as (? & ? & _). }
  set (st1 := processFaceVisibility now face st) in *.
  assert (H2 : monitoringStatus (processMultipleFaces now face st1) = monitoringStatus st
             ∧ objectCooldowns (processMultipleFaces now face st1) = objectCooldowns st).
  { unfold processMultipleFaces. case_match; [|done].
    by rewrite addViolation_status, addViolation_objectCooldowns. }
  set (st2 := processMultipleFaces now face st1) in *.
  destruct H2 as [<- <-]. unfold processLookingAway.
  repeat case_match;
    first [ by destruct (clearViolationTimeout_rest LOOKING_AWAY st2) as (? & ? & _)
          | by destruct (handleViolationTimeout_rest now LOOKING_AWAY
              "Candidate looking away from screen for more than 5 seconds"
              medium 5000 st2) as (? & ? & _) ].
Qed.

End frames.

(** ** Claims about [addViolation], the session and the object rules *)

(** C3. [addViolation] changes nothing while the type is in its cooldown
    ([now - lastEmission < cooldown]); otherwise it appends exactly one
    event, recomputes the score from the new list and records [now] as the
    type's last emission.  The cooldowns are 15 s for multiple faces, 20 s
    for face not visible, 10 s for looking away, 30 s for phone, device and
    book, and 10 s for any other type. *)
Theorem addViolation_cooldown
    (now : Z) (type : ViolationType) (description : string)
    (severity : Severity) (st : Hook) :
  (now - lastEmission st type < getCooldownPeriod type →
   addViolation now type description severity st = st)
  ∧ (¬ now - lastEmission st type < getCooldownPeriod type →
     let st' := addViolation now type description severity st in
     violations (sessionData st')
       = violations (sessionData st) ++ [newViolation now type description severity]
     ∧ integrityScore (sessionData st')
       = calculateIntegrityScore (violations (sessionData st'))
     ∧ violationCooldowns st' = <[type := now]> (violationCooldowns st)
     ∧ lastEmission st' type = now)
  ∧ getCooldownPeriod MULTIPLE_FACES = 15000
  ∧ getCooldownPeriod FACE_NOT_VISIBLE = 20000
  ∧ getCooldownPeriod LOOKING_AWAY = 10000
  ∧ getCooldownPeriod PHONE_DETECTED = 30000
  ∧ getCooldownPeriod DEVICE_DETECTED = 30000
  ∧ getCooldownPeriod BOOK_DETECTED = 30000
  ∧ (∀ other,
       other ∉ [MULTIPLE_FACES; FACE_NOT_VISIBLE; LOOKING_AWAY;
                PHONE_DETECTED; DEVICE_DETECTED; BOOK_DETECTED] →
       getCooldownPeriod other = 10000).
Proof.
  split; [|split].
  - intros Hcool. unfold addViolation.
    by rewrite (proj2 (Z.ltb_lt _ _) Hcool).
  - intros Hfree. unfold addViolation.
    rewrite (proj2 (Z.ltb_ge _ _)) by lia. simpl.
    repeat split. unfold lastEmission. simpl. by rewrite lookup_insert_eq.
  - repeat split. intros other Hother.
    destruct other; try reflexivity; destruct Hother; set_solver.
Qed.

(** C8. [startMonitoring] sets [isRecording] and resets [startTime] to the
    current instant; the violations, the score and the session id stay as
    they were. *)
Theorem startMonitoring_keeps_timeline (now : Z) (st : Hook) :
  let st' := startMonitoring now st in
  isRecording (monitoringStatus st') = true
  ∧ startTime (sessionData st') = now
  ∧ violations (sessionData st') = violations (sessionData st)
  ∧ integrityScore (sessionData st') = integrityScore (sessionData st)
  ∧ sessionId (sessionData st') = sessionId (sessionData st).
Proof. repeat split. Qed.

(** C6, as amended.  An object is looked at only when the cooldown of its
    lowercased label has elapsed (more than 30 s since the timestamp
    recorded for the label, 0 when there is none); otherwise it changes
    nothing.  When it is looked at, the first matching rule applies: a
    label containing "phone" gives a critical PhoneDetected; one
    containing "book" and not "phone" gives a high BookDetected; one
    containing "laptop" or "tablet" and neither "phone" nor "book" gives a
    high DeviceDetected.  Each of these calls [addViolation] and then
    records the current instant for the label, also when the type's own
    cooldown suppresses the event. *)
Theorem processObject_rules (now : Z) (obj : ObjectResult) (st : Hook) :
  let objectKey := toLowerCase (object obj) in
  (¬ 30000 < now - lastDetection st objectKey → processObject now obj st = st)
  ∧ (30000 < now - lastDetection st objectKey →
     (includes objectKey "phone" = true →
      processObject now obj st
      = emitObject now objectKey PHONE_DETECTED (phoneDescription obj) critical st)
     ∧ (includes objectKey "phone" = false → includes objectKey "book" = true →
        processObject now obj st
        = emitObject now objectKey BOOK_DETECTED (bookDescription obj) high st)
     ∧ (includes objectKey "phone" = false → includes objectKey "book" = false →
        includes objectKey "laptop" || includes objectKey "tablet" = true →
        processObject now obj st
        = emitObject now objectKey DEVICE_DETECTED (deviceDescription obj) high st))
  ∧ (∀ type d sev,
       let st' := emitObject now objectKey type d sev st in
       objectCooldowns st' = <[objectKey := now]> (objectCooldowns st)
       ∧ lastDetection st' objectKey = now
       ∧ (now - lastEmission st type < getCooldownPeriod type →
          violations (sessionData st') = violations (sessionData st))
       ∧ (¬ now - lastEmission st type < getCooldownPeriod type →
          violations (sessionData st')
          = violations (sessionData st) ++ [newViolation now type d sev])).
Proof.
  intros objectKey. unfold processObject. cbv zeta. fold objectKey.
  split; [|split].
  - intros Hcool. by rewrite (proj2 (Z.ltb_ge _ _)) by lia.
  - intros Hfree. rewrite (proj2 (Z.ltb_lt _ _) Hfree). repeat split.
    + by intros ->.
    + by intros -> ->.
    + by intros -> -> ->.
  - intros type d sev. unfold emitObject.
    split; [|split; [|split]].
    + simpl. by rewrite addViolation_objectCooldowns.
    + unfold lastDetection. simpl. by rewrite lookup_insert_eq.
    + intros Hcool. unfold addViolation.
      by rewrite (proj2 (Z.ltb_lt _ _) Hcool).
    + intros Hfree. unfold addViolation.
      by rewrite (proj2 (Z.ltb_ge _ _)) by lia.
Qed.

(** C10. An object whose lowercased label contains none of "phone",
    "book", "laptop", "tablet" changes nothing: no violation, no cooldown
    timestamp for its label, in any frame; a frame acts as if such objects
    were not in it, except that their labels are listed in
    [objectsDetected].  The detector's allow-list does report such labels:
    "mouse", "keyboard", "remote" and "scissors" pass its filter. *)
Theorem keyword_free_objects_ignored :
  (∀ now obj st,
     hasKeyword (toLowerCase (object obj)) = false → processObject now obj st = st)
  ∧ (∀ now face objs st key,
       hasKeyword key = false →
       objectCooldowns (processFrame now face objs st) !! key
         = objectCooldowns st !! key)
  ∧ (∀ now face objs st,
       processDetectionResults now face objs st
       = processDetectionResults now face
           (filter (λ o, hasKeyword (toLowerCase (object o)) = true) objs) st)
  ∧ (∀ now face objs st,
       objectsDetected (monitoringStatus (processFrame now face objs st))
         = object <$> objs)
  ∧ (∀ label sc,
       label ∈ ["mouse"; "keyboard"; "remote"; "scissors"] →
       Qle_bool sc scoreThreshold = false →
       detectObjects [mkPrediction label sc] = [mkObject label sc]
       ∧ hasKeyword (toLowerCase label) = false).
Proof.
  split; [|split; [|split; [|split]]].
  - intros now obj st. apply processObject_no_keyword.
  - intros now face objs st key Hkey. unfold processFrame, processDetectionResults.
    rewrite processObjects_objectCooldowns by done.
    by destruct (faceRules_rest now face (withStatus
      (λ prev, {| isRecording := isRecording prev;
                  faceDetected := hasFace face;
                  objectsDetected := object <$> objs;
                  currentViolation := currentViolation prev;
                  violationStartTime := violationStartTime prev |}) st)) as [_ ->].
  - intros now face objs st. unfold processDetectionResults.
    apply processObjects_filter.
  - intros now face objs st. unfold processFrame, processDetectionResults.
    rewrite processObjects_status.
    by destruct (faceRules_rest now face (withStatus
      (λ prev, {| isRecording := isRecording prev;
                  faceDetected := hasFace face;
                  objectsDetected := object <$> objs;
                  currentViolation := currentViolation prev;
                  violationStartTime := violationStartTime prev |}) st)) as [-> _].
  - intros label sc Hlabel Hsc.
    assert (Hcases : label = "mouse" ∨ label = "keyboard"
                     ∨ label = "remote" ∨ label = "scissors").
    { rewrite !elem_of_cons, elem_of_nil in Hlabel. tauto. }
    unfold detectObjects.
    destruct Hcases as [-> | [-> | [-> | ->]]];
      (split; [|reflexivity]);
      (rewrite filter_cons, decide_True;
        [reflexivity
        |unfold isSuspicious; cbn [score class]; rewrite Hsc; reflexivity]).
Qed.

(** ** [stopMonitoring] and the object cooldowns *)

(** What [stopMonitoring] does in a coherent state. *)
Lemma stopMonitoring_effect (now : Z) (st : Hook) :
  timersCoherent st →
  let st' := stopMonitoring now st in
  isRecording (monitoringStatus st') = false
  ∧ endTime (sessionData st') = Some now
  ∧ totalDuration (sessionData st') = (now - startTime (sessionData st)) / 1000
  ∧ pendingTimers st' = []
  ∧ violationTimeouts st' = ∅
  ∧ violationCooldowns st' = ∅
  ∧ objectCooldowns st' = objectCooldowns st.
Proof.
  intros Hc st'. repeat split.
  pose proof (stopMonitoring_timerView now st Hc) as Hv.
  change (pendingTimers st') with (timerView (stopMonitoring now st)).1.2.
  by rewrite Hv.
Qed.

(** C4 fails on the object cooldowns.  A phone is seen at [t0 + 1500] and
    monitoring is stopped at [t0 + 5000]: recording is off, the end time
    and the duration are set, no timer is pending and the per-type
    cooldowns are empty, but the label "cell phone" keeps its timestamp.
    After a restart the phone seen again at [t0 + 11500] is therefore
    still suppressed, although the per-type cooldown that would have
    suppressed it was cleared. *)
Theorem stopMonitoring_keeps_objectCooldowns :
  let st := stopMonitoring (t0 + 5000) sessionWithPhone in
  isRecording (monitoringStatus st) = false
  ∧ endTime (sessionData st) = Some (t0 + 5000)
  ∧ totalDuration (sessionData st) = 5
  ∧ pendingTimers st = []
  ∧ map_to_list (violationCooldowns st) = []
  ∧ objectCooldowns st !! "cell phone" = Some (t0 + 1500)
  ∧ violations (sessionData
      (run st [EStart (t0 + 8000); EFrame (t0 + 11500) facingFace [cellPhone]]))
    = violations (sessionData sessionWithPhone).
Proof. vm_compute. repeat split. Qed.

(** ** Witnesses and counterexamples *)

Lemma calculateIntegrityScore_stable_witness :
  calculateIntegrityScore [phoneCritical; awayMedium]
  = calculateIntegrityScore [awayMedium; phoneCritical]
  ∧ calculateIntegrityScore ([phoneCritical; awayMedium] ++ [phoneHigh])
    = calculateIntegrityScore [phoneCritical; awayMedium].
Proof.
  split.
  - apply (proj1 (calculateIntegrityScore_stable
      [phoneCritical; awayMedium] [awayMedium; phoneCritical]
      phoneCritical phoneHigh)).
    apply perm_swap.
  - apply (proj2 (calculateIntegrityScore_stable
      [phoneCritical; awayMedium] [awayMedium; phoneCritical]
      phoneCritical phoneHigh)).
    + left.
    + reflexivity.
    + simpl. lia.
Defined.

Lemma calculateIntegrityScore_only_type_severity_witness :
  calculateIntegrityScore [phoneCritical; awayMedium]
  = calculateIntegrityScore [phoneCritical; awayMediumLater]
  ∧ calculateIntegrityScore [phoneCritical; awayMedium]
    = calculateIntegrityScore [awayMediumLater; phoneCritical].
Proof.
  split.
  - apply (proj1 (calculateIntegrityScore_only_type_severity
      [phoneCritical; awayMedium] [phoneCritical; awayMediumLater])).
    repeat constructor.
  - apply (proj2 (calculateIntegrityScore_only_type_severity
      [phoneCritical; awayMedium] [awayMediumLater; phoneCritical])).
    simpl. apply perm_swap.
Defined.

Lemma addViolation_cooldown_witness :
  addViolation (t0 + 5000) PHONE_DETECTED "seen again" critical sessionWithPhone
  = sessionWithPhone
  ∧ violations (sessionData
      (addViolation t0 LOOKING_AWAY "away" medium (useProctoring "Ann" t0)))
    = [newViolation t0 LOOKING_AWAY "away" medium].
Proof.
  split.
  - apply (proj1 (addViolation_cooldown
      (t0 + 5000) PHONE_DETECTED "seen again" critical sessionWithPhone)).
    vm_compute. reflexivity.
  - apply (proj1 (proj2 (addViolation_cooldown
      t0 LOOKING_AWAY "away" medium (useProctoring "Ann" t0)))).
    vm_compute. discriminate.
Defined.

Lemma debounce_one_timer_per_type_witness :
  handleViolationTimeout (t0 + 3000) LOOKING_AWAY "away" medium 5000
    sessionLookingAway = sessionLookingAway
  ∧ clearViolationTimeout FACE_NOT_VISIBLE sessionLookingAway = sessionLookingAway.
Proof.
  split.
  - apply (proj1 (proj2 (debounce_one_timer_per_type "Ann" t0
      [EStart t0; EFrame (t0 + 1500) awayFace []] LOOKING_AWAY))).
    vm_compute. discriminate.
  - apply (proj2 (proj2 (debounce_one_timer_per_type "Ann" t0
      [EStart t0; EFrame (t0 + 1500) awayFace []] FACE_NOT_VISIBLE))).
    vm_compute. reflexivity.
Defined.

Lemma cancelled_timer_never_emits_witness :
  fireTimer 1 (t0 + 6500)
    (run (stopMonitoring (t0 + 3000) sessionLookingAway) []) = None
  ∧ violations (sessionData
      (run (stopMonitoring (t0 + 3000) sessionLookingAway)
         (firings [(1%positive, t0 + 6500)])))
    = violations (sessionData sessionLookingAway).
Proof.
  assert (Hin : lookingAwayTimer ∈ pendingTimers sessionLookingAway).
  { vm_compute. left. }
  pose proof (cancelled_timer_never_emits "Ann" t0
    [EStart t0; EFrame (t0 + 1500) awayFace []] lookingAwayTimer Hin)
    as (_ & _ & Hstop & Hidle).
  split.
  - apply (Hstop (t0 + 3000) [] (t0 + 6500)).
  - apply (Hidle (t0 + 3000) [(1%positive, t0 + 6500)]).
Defined.

Lemma processObject_rules_witness :
  processObject t0 cellPhone (useProctoring "Ann" t0)
  = emitObject t0 "cell phone" PHONE_DETECTED (phoneDescription cellPhone)
      critical (useProctoring "Ann" t0)
  ∧ processObject t0 notebook (useProctoring "Ann" t0)
    = emitObject t0 "notebook" BOOK_DETECTED (bookDescription notebook)
        high (useProctoring "Ann" t0)
  ∧ processObject t0 laptop (useProctoring "Ann" t0)
    = emitObject t0 "laptop" DEVICE_DETECTED (deviceDescription laptop)
        high (useProctoring "Ann" t0)
  ∧ processObject (t0 + 5000) cellPhone sessionWithPhone = sessionWithPhone
  ∧ violations (sessionData
      (emitObject (t0 + 5000) "cell phone" PHONE_DETECTED "again" critical sessionWithPhone))
    = violations (sessionData sessionWithPhone)
  ∧ violations (sessionData
      (emitObject t0 "cell phone" PHONE_DETECTED "first" critical (useProctoring "Ann" t0)))
    = [newViolation t0 PHONE_DETECTED "first" critical].
Proof.
  split; [|split; [|split; [|split; [|split]]]].
  - apply (proj1 (proj1 (proj2
      (processObject_rules t0 cellPhone (useProctoring "Ann" t0))) eq_refl)).
    reflexivity.
  - apply (proj1 (proj2 (proj1 (proj2
      (processObject_rules t0 notebook (useProctoring "Ann" t0))) eq_refl)));
      reflexivity.
  - apply (proj2 (proj2 (proj1 (proj2
      (processObject_rules t0 laptop (useProctoring "Ann" t0))) eq_refl)));
      reflexivity.
  - apply (proj1 (processObject_rules (t0 + 5000) cellPhone sessionWithPhone)).
    vm_compute. discriminate.
  - apply (proj2 (proj2 (processObject_rules (t0 + 5000) cellPhone sessionWithPhone))
             PHONE_DETECTED "again" critical).
    vm_compute. reflexivity.
  - apply (proj2 (proj2 (processObject_rules t0 cellPhone (useProctoring "Ann" t0)))
             PHONE_DETECTED "first" critical).
    vm_compute. discriminate.
Defined.

Lemma keyword_free_objects_ignored_witness :
  processObject t0 mouse sessionWithPhone = sessionWithPhone
  ∧ objectCooldowns (processFrame (t0 + 3000) facingFace [mouse; cellPhone]
                       sessionWithPhone) !! "mouse"
    = objectCooldowns sessionWithPhone !! "mouse"
  ∧ detectObjects [mkPrediction "mouse" (1 # 2)] = [mouse].
Proof.
  split; [|split].
  - apply (proj1 keyword_free_objects_ignored t0 mouse sessionWithPhone).
    reflexivity.
  - apply (proj1 (proj2 keyword_free_objects_ignored)
             (t0 + 3000) facingFace [mouse; cellPhone] sessionWithPhone "mouse").
    reflexivity.
  - apply (proj2 (proj2 (proj2 (proj2 keyword_free_objects_ignored)))
             "mouse" (1 # 2)%Q); [left|reflexivity].
Defined.

(** C6 as stated does not hold for a label with two keywords: with no
    cooldown in the way, "Phone Book" contains "book" and yet no
    BookDetected event is produced; the only event is a critical
    PhoneDetected. *)
Lemma phone_book_is_not_a_book :
  let objectKey := toLowerCase (object phoneBook) in
  let st := processObject t0 phoneBook (useProctoring "Ann" t0) in
  30000 < t0 - lastDetection (useProctoring "Ann" t0) objectKey
  ∧ includes objectKey "book" = true
  ∧ violationsOf BOOK_DETECTED st = []
  ∧ scoreKey <$> violations (sessionData st) = [(PHONE_DETECTED, critical)].
Proof. vm_compute. repeat split. Qed.

(** ** Runs of the hook: the session data *)

Section session.
Implicit Types (st : Hook) (ty : ViolationType) (now : Z).
Implicit Types (s : SessionData) (vs : list ViolationEvent).

Lemma sumZ_mono {A} (f g : A → Z) (l : list A) :
  (∀ x, f x ≤ g x) → sumZ f l ≤ sumZ g l.
Proof.
  intros Hfg. unfold sumZ. induction l as [|x l IH]; simpl; [lia|].
  specialize (Hfg x). lia.
Qed.

Lemma sumZ_filter_zero {A} (f : A → Z) (P : A → Prop) `{!∀ x, Decision (P x)}
    (l : list A) :
  (∀ x, ¬ P x → f x = 0) → sumZ f (filter P l) = sumZ f l.
Proof.
  intros Hzero. induction l as [|x l IH]; [done|].
  rewrite filter_cons. case_decide as HP.
  - unfold sumZ in *. simpl. by rewrite IH.
  - unfold sumZ in *. simpl. rewrite IH, (Hzero x HP). lia.
Qed.

Lemma allViolationTypes_complete ty : ty ∈ allViolationTypes.
Proof. unfold allViolationTypes. destruct ty; rewrite !elem_of_cons; tauto. Qed.

Lemma allViolationTypes_NoDup : NoDup allViolationTypes.
Proof.
  unfold allViolationTypes.
  repeat (apply NoDup_cons; split;
          [rewrite ?elem_of_cons, elem_of_nil; intuition discriminate|]).
  constructor.
Qed.

(** The deductions, added over the whole enumeration. *)
Lemma calculateIntegrityScore_allTypes vs :
  calculateIntegrityScore vs
  = Z.max 0 (100 - sumZ (groupDeduction (scoreKey <$> vs)) allViolationTypes).
Proof.
  unfold calculateIntegrityScore.
  pose proof (scoreFold_spec vs) as [_ Hm]. simpl in Hm.
  destruct (foldl scoreStep (∅, ∅) vs) as [u m]. simpl in Hm.
  rewrite (sumDeductions_keys m
             (filter (λ k, is_Some (m !! k)) allViolationTypes)).
  - rewrite sumZ_filter_zero.
    + f_equal. f_equal. apply sumZ_ext. intros ty _.
      unfold groupDeduction. by rewrite Hm.
    + intros ty Hnone. destruct (m !! ty); [|done]. destruct Hnone. eauto.
  - apply NoDup_filter, allViolationTypes_NoDup.
  - intros k. rewrite list_elem_of_filter.
    pose proof (allViolationTypes_complete k). tauto.
Qed.

Lemma groupDeduction_app_le ps qs ty :
  groupDeduction ps ty ≤ groupDeduction (ps ++ qs) ty.
Proof.
  unfold groupDeduction. rewrite groupMax_app.
  destruct (groupMax ty ps) as [[]|], (groupMax ty qs) as [[]|];
    simpl; unfold sevMax; simpl; lia.
Qed.

(** Appending events never raises the score. *)
Lemma calculateIntegrityScore_app_le vs ws :
  calculateIntegrityScore (vs ++ ws) ≤ calculateIntegrityScore vs.
Proof.
  rewrite !calculateIntegrityScore_allTypes, fmap_app.
  pose proof (sumZ_mono (groupDeduction (scoreKey <$> vs))
                (groupDeduction ((scoreKey <$> vs) ++ (scoreKey <$> ws)))
                allViolationTypes
                (groupDeduction_app_le _ _)).
  lia.
Qed.

Lemma sessionGrows_refl s : sessionGrows s s.
Proof. by repeat split. Qed.

Lemma sessionGrows_trans s1 s2 s3 :
  sessionGrows s1 s2 → sessionGrows s2 s3 → sessionGrows s1 s3.
Proof.
  intros (Hn & Hi & Hp & Hc) (Hn' & Hi' & Hp' & Hc'). repeat split.
  - congruence.
  - congruence.
  - by etrans.
  - auto.
Qed.

Lemma appendViolation_grows v s : sessionGrows s (appendViolation v s).
Proof.
  repeat split; simpl. by apply prefix_app_r.
Qed.

Lemma addViolation_grows now ty d sev st :
  sessionGrows (sessionData st) (sessionData (addViolation now ty d sev st)).
Proof.
  unfold addViolation. case_match; [apply sessionGrows_refl|].
  apply appendViolation_grows.
Qed.

Lemma processObject_grows now obj st :
  sessionGrows (sessionData st) (sessionData (processObject now obj st)).
Proof.
  unfold processObject.
  repeat case_match; try apply sessionGrows_refl; apply addViolation_grows.
Qed.

Lemma processObjects_grows now objs st :
  sessionGrows (sessionData st)
    (sessionData (foldl (λ acc obj, processObject now obj acc) st objs)).
Proof.
  revert st. induction objs as [|obj objs IH]; intros st; [apply sessionGrows_refl|].
  simpl. eapply sessionGrows_trans; [apply processObject_grows|apply IH].
Qed.

Lemma processFrame_grows now face objs st :
  sessionGrows (sessionData st) (sessionData (processFrame now face objs st)).
Proof.
  unfold processFrame, processDetectionResults.
  eapply sessionGrows_trans; [|apply processObjects_grows].
  set (st0 := withStatus _ st).
  change (sessionData st) with (sessionData st0).
  assert (H1 : sessionData (processFaceVisibility now face st0) = sessionData st0).
  { unfold processFaceVisibility. case_match.
    - by destruct (handleViolationTimeout_rest now FACE_NOT_VISIBLE
        "Candidate's face is not visible for more than 10 seconds" high 10000 st0)
        as (_ & _ & ?).
    - by destruct (clearViolationTimeout_rest FACE_NOT_VISIBLE st0) as (_ & _ & ?). }
  set (st1 := processFaceVisibility now face st0) in *.
  assert (H2 : sessionGrows (sessionData st0)
                 (sessionData (processMultipleFaces now face st1))).
  { rewrite <- H1. unfold processMultipleFaces.
    case_match; [apply addViolation_grows|apply sessionGrows_refl]. }
  set (st2 := processMultipleFaces now face st1) in *.
  assert (H3 : sessionData (processLookingAway now face st2) = sessionData st2).
  { unfold processLookingAway.
    repeat case_match;
      first [ by destruct (clearViolationTimeout_rest LOOKING_AWAY st2) as (_ & _ & ?)
            | by destruct (handleViolationTimeout_rest now LOOKING_AWAY
                "Candidate looking away from screen for more than 5 seconds"
                medium 5000 st2) as (_ & _ & ?) ]. }
  by rewrite H3.
Qed.

Lemma step_grows st e : sessionGrows (sessionData st) (sessionData (step st e)).
Proof.
  destruct e as [now|now|now face objs|h now|now ty d sev]; simpl.
  - by repeat split.
  - by repeat split.
  - apply processFrame_grows.
  - destruct (fireTimer h now st) as [st'|] eqn:Hf; [|apply sessionGrows_refl].
    apply fireTimer_inv in Hf as (t & _ & _ & _ & _ & Hs & _).
    simpl. rewrite Hs. apply addViolation_grows.
  - apply addViolation_grows.
Qed.

Lemma run_grows st events :
  sessionGrows (sessionData st) (sessionData (run st events)).
Proof.
  revert st. induction events as [|e events IH]; intros st; [apply sessionGrows_refl|].
  simpl. eapply sessionGrows_trans; [apply step_grows|apply IH].
Qed.

Lemma run_app st events1 events2 :
  run st (events1 ++ events2) = run (run st events1) events2.
Proof. apply foldl_app. Qed.

Lemma reachable_scoreConsistent (name : string) (created : Z) (events : list Event) :
  scoreConsistent (sessionData (run (useProctoring name created) events)).
Proof.
  destruct (run_grows (useProctoring name created) events) as (_ & _ & _ & Hc).
  apply Hc. reflexivity.
Qed.

End session.

(** X1. In every state the hook reaches, the stored integrity score is the
    score of the stored timeline, and lies between 0 and 100. *)
Theorem reachable_score_invariant
    (name : string) (created : Z) (events : list Event) :
  let st := run (useProctoring name created) events in
  integrityScore (sessionData st)
    = calculateIntegrityScore (violations (sessionData st))
  ∧ 0 ≤ integrityScore (sessionData st) ≤ 100.
Proof.
  intros st. pose proof (reachable_scoreConsistent name created events) as Hc.
  fold st in Hc. unfold scoreConsistent in Hc. split; [exact Hc|].
  rewrite Hc. apply calculateIntegrityScore_bounds.
Qed.

(** X2. No operation of the hook removes, rewrites or reorders an event:
    from any state, the timeline after any run of events extends the
    timeline before it at the end; the candidate name and the session id
    never change. *)
Theorem run_extends_timeline (st : Hook) (events : list Event) :
  violations (sessionData st) `prefix_of` violations (sessionData (run st events))
  ∧ candidateName (sessionData (run st events)) = candidateName (sessionData st)
  ∧ sessionId (sessionData (run st events)) = sessionId (sessionData st).
Proof.
  by destruct (run_grows st events) as (? & ? & ? & _).
Qed.

(** X3. The stored integrity score never goes up as a session goes on. *)
Theorem score_never_increases
    (name : string) (created : Z) (events later : list Event) :
  integrityScore (sessionData (run (useProctoring name created) (events ++ later)))
  ≤ integrityScore (sessionData (run (useProctoring name created) events)).
Proof.
  pose proof (reachable_scoreConsistent name created (events ++ later)) as H2.
  pose proof (reachable_scoreConsistent name created events) as H1.
  unfold scoreConsistent in *. rewrite H1, H2, run_app.
  destruct (run_grows (run (useProctoring name created) events) later)
    as (_ & _ & [k ->] & _).
  apply calculateIntegrityScore_app_le.
Qed.

(** ** Runs of the hook: the cooldown window *)

Section window.
Implicit Types (st : Hook) (ty : ViolationType) (now : Z).

Lemma handleViolationTimeout_emissionView now ty d s delay st :
  emissionView (handleViolationTimeout now ty d s delay st) = emissionView st.
Proof. unfold handleViolationTimeout. by case_decide. Qed.

Lemma clearViolationTimeout_emissionView ty st :
  emissionView (clearViolationTimeout ty st) = emissionView st.
Proof. unfold clearViolationTimeout. by case_match. Qed.

Lemma fireTimer_emissionView h now st st' :
  fireTimer h now st = Some st' →
  ∃ t, t ∈ pendingTimers st ∧ thandle t = h ∧ tdue t ≤ now ∧
    emissionView st'
    = emissionView (addViolation now (ttype t) (tdescription t) (tseverity t) st).
Proof.
  unfold fireTimer.
  destruct (list_find _ _) as [[i t]|] eqn:Hfind; [|done].
  apply list_find_Some in Hfind as (Hi & Hh & _).
  destruct (tdue t <=? now) eqn:Hdue; [|done]. intros [= <-].
  exists t. split; [by eapply list_elem_of_lookup_2|].
  split; [done|]. split; [lia|].
  unfold emissionView, addViolation, lastEmission. simpl.
  by destruct (_ <? _).
Qed.

Lemma quiet_view ty last V st st' :
  emissionView st' = emissionView st → quiet ty last V st → quiet ty last V st'.
Proof.
  unfold emissionView, quiet, violationsOf. intros [= Hs Hc]. by rewrite Hs, Hc.
Qed.

Lemma addViolation_quiet ty last V now ty' d s st :
  now - last < getCooldownPeriod ty →
  quiet ty last V st → quiet ty last V (addViolation now ty' d s st).
Proof.
  intros Hwin [Hlast HV]. destruct (decide (ty' = ty)) as [->|Hne].
  - unfold addViolation, lastEmission. rewrite Hlast. simpl.
    by rewrite (proj2 (Z.ltb_lt _ _) Hwin).
  - split.
    + unfold addViolation. case_match; [done|]. simpl.
      by rewrite lookup_insert_ne.
    + by rewrite addViolation_violationsOf_ne.
Qed.

Lemma processObject_quiet ty last V now obj st :
  now - last < getCooldownPeriod ty →
  quiet ty last V st → quiet ty last V (processObject now obj st).
Proof.
  intros Hwin Hq. unfold processObject.
  repeat case_match; try done;
    refine (quiet_view _ _ _ _ _ _ (addViolation_quiet _ _ _ _ _ _ _ _ Hwin Hq));
    reflexivity.
Qed.

Lemma processObjects_quiet ty last V now objs st :
  now - last < getCooldownPeriod ty →
  quiet ty last V st →
  quiet ty last V (foldl (λ acc obj, processObject now obj acc) st objs).
Proof.
  intros Hwin. revert st.
  induction objs as [|obj objs IH]; intros st Hq; [done|].
  simpl. apply IH. by apply processObject_quiet.
Qed.

Lemma processFrame_quiet ty last V now face objs st :
  now - last < getCooldownPeriod ty →
  quiet ty last V st → quiet ty last V (processFrame now face objs st).
Proof.
  intros Hwin Hq. unfold processFrame, processDetectionResults.
  set (st0 := withStatus _ st).
  assert (H0 : quiet ty last V st0) by exact Hq.
  assert (H1 : quiet ty last V (processFaceVisibility now face st0)).
  { unfold processFaceVisibility. case_match.
    - by apply (quiet_view _ _ _ st0), H0; apply handleViolationTimeout_emissionView.
    - by apply (quiet_view _ _ _ st0), H0; apply clearViolationTimeout_emissionView. }
  set (st1 := processFaceVisibility now face st0) in *.
  assert (H2 : quiet ty last V (processMultipleFaces now face st1)).
  { unfold processMultipleFaces. case_match; [by apply addViolation_quiet|done]. }
  set (st2 := processMultipleFaces now face st1) in *.
  assert (H3 : quiet ty last V (processLookingAway now face st2)).
  { unfold processLookingAway.
    repeat case_match;
      first [ by apply (quiet_view _ _ _ st2), H2;
                apply clearViolationTimeout_emissionView
            | by apply (quiet_view _ _ _ st2), H2;
                apply handleViolationTimeout_emissionView ]. }
  by apply processObjects_quiet.
Qed.

Lemma step_quiet ty last V st e :
  isStop e = false → eventTime e - last < getCooldownPeriod ty →
  quiet ty last V st → quiet ty last V (step st e).
Proof.
  intros Hstop Hwin Hq.
  destruct e as [now|now|now face objs|h now|now ty' d s]; simpl in *.
  - exact Hq.
  - discriminate.
  - by apply processFrame_quiet.
  - destruct (fireTimer h now st) as [st'|] eqn:Hf; [|done]. simpl.
    apply fireTimer_emissionView in Hf as (t & _ & _ & _ & Hv).
    apply (quiet_view _ _ _ _ _ Hv). by apply addViolation_quiet.
  - by apply addViolation_quiet.
Qed.

End window.

(** X4. While a type is inside its cooldown window nothing adds an event
    of that type: if [ty] was last emitted at [last], then after any run
    of events that contains no stop and whose instants are all less than
    the cooldown after [last], the timeline holds the same events of type
    [ty] and the type's last emission is still [last]. *)
Theorem cooldown_window
    (ty : ViolationType) (last : Z) (st : Hook) (events : list Event) :
  violationCooldowns st !! ty = Some last →
  Forall (λ e, isStop e = false ∧ eventTime e - last < getCooldownPeriod ty)
         events →
  violationsOf ty (run st events) = violationsOf ty st
  ∧ violationCooldowns (run st events) !! ty = Some last.
Proof.
  intros Hlast Hall.
  assert (Hq : quiet ty last (violationsOf ty st) (run st events)).
  { assert (H0 : quiet ty last (violationsOf ty st) st) by done.
    revert H0. generalize (violationsOf ty st) as V. revert st Hlast.
    induction Hall as [|e events [Hstop Hwin] _ IH]; intros st Hlast V H0; [done|].
    simpl. pose proof (step_quiet ty last V st e Hstop Hwin H0) as H1.
    apply IH; [apply H1|exact H1]. }
  destruct Hq as [? ?]. done.
Qed.

Lemma addViolation_after_emission
    (now1 now2 : Z) (ty : ViolationType) (d1 d2 : string) (s1 s2 : Severity)
    (st : Hook) :
  ¬ now1 - lastEmission st ty < getCooldownPeriod ty →
  violations (sessionData
    (addViolation now2 ty d2 s2 (addViolation now1 ty d1 s1 st)))
  = violations (sessionData st) ++ [newViolation now1 ty d1 s1]
    ++ (if now2 - now1 <? getCooldownPeriod ty then []
        else [newViolation now2 ty d2 s2]).
Proof.
  intros Hfree.
  assert (H1 : addViolation now1 ty d1 s1 st
    = withViolationCooldowns (λ m, <[ty := now1]> m)
        (withSession (appendViolation (newViolation now1 ty d1 s1)) st)).
  { unfold addViolation. by rewrite (proj2 (Z.ltb_ge _ _)) by lia. }
  rewrite H1. unfold addViolation at 1. unfold lastEmission at 1. simpl.
  rewrite lookup_insert_eq. simpl.
  destruct (now2 - now1 <? getCooldownPeriod ty); simpl.
  - reflexivity.
  - by rewrite <- app_assoc.
Qed.

(** X5. Two emissions of one type: when the first call of [addViolation]
    emits, a second call for the same type adds nothing if it comes less
    than the cooldown after the first, and adds its own event otherwise. *)
Theorem addViolation_twice
    (now1 now2 : Z) (ty : ViolationType) (d1 d2 : string) (s1 s2 : Severity)
    (st : Hook) :
  ¬ now1 - lastEmission st ty < getCooldownPeriod ty →
  violations (sessionData
    (addViolation now2 ty d2 s2 (addViolation now1 ty d1 s1 st)))
  = violations (sessionData st) ++ [newViolation now1 ty d1 s1]
    ++ (if now2 - now1 <? getCooldownPeriod ty then []
        else [newViolation now2 ty d2 s2]).
Proof. apply addViolation_after_emission. Qed.

Section relook.
Implicit Types (st : Hook) (now : Z) (obj : ObjectResult).

Lemma processObject_looked now obj st :
  hasKeyword (toLowerCase (object obj)) = true →
  30000 < now - lastDetection st (toLowerCase (object obj)) →
  lastDetection (processObject now obj st) (toLowerCase (object obj)) = now.
Proof.
  intros Hkey Hel. unfold processObject. cbv zeta.
  rewrite (proj2 (Z.ltb_lt _ _) Hel). unfold hasKeyword in Hkey.
  destruct (includes (toLowerCase (object obj)) "phone") eqn:E1.
  { unfold lastDetection. simpl. by rewrite lookup_insert_eq. }
  destruct (includes (toLowerCase (object obj)) "book") eqn:E2.
  { unfold lastDetection. simpl. by rewrite lookup_insert_eq. }
  simpl in Hkey. rewrite Hkey.
  unfold lastDetection. simpl. by rewrite lookup_insert_eq.
Qed.

Lemma processObject_in_cooldown now obj st :
  ¬ 30000 < now - lastDetection st (toLowerCase (object obj)) →
  processObject now obj st = st.
Proof.
  intros Hcool. unfold processObject. cbv zeta.
  by rewrite (proj2 (Z.ltb_ge _ _)) by lia.
Qed.

End relook.

(** X6. Once an object with a keyword has been looked at, its label is
    ignored for the next 30 s, whether or not an event was emitted: any
    object with the same lowercased label processed at most 30 s later
    changes nothing.  In particular processing the same object twice at
    one instant is the same as processing it once. *)
Theorem processObject_relook
    (now1 now2 : Z) (obj obj' : ObjectResult) (st : Hook) :
  processObject now1 obj (processObject now1 obj st) = processObject now1 obj st
  ∧ (toLowerCase (object obj') = toLowerCase (object obj) →
     hasKeyword (toLowerCase (object obj)) = true →
     30000 < now1 - lastDetection st (toLowerCase (object obj)) →
     now2 - now1 ≤ 30000 →
     processObject now2 obj' (processObject now1 obj st)
     = processObject now1 obj st).
Proof.
  assert (Hre : ∀ now2 obj',
    toLowerCase (object obj') = toLowerCase (object obj) →
    hasKeyword (toLowerCase (object obj)) = true →
    30000 < now1 - lastDetection st (toLowerCase (object obj)) →
    now2 - now1 ≤ 30000 →
    processObject now2 obj' (processObject now1 obj st)
    = processObject now1 obj st).
  { intros n o Hsame Hkey Hel Hsoon. apply processObject_in_cooldown.
    rewrite Hsame, processObject_looked by done. lia. }
  split; [|apply Hre].
  destruct (decide (30000 < now1 - lastDetection st (toLowerCase (object obj))))
    as [Hel|Hcool].
  - destruct (hasKeyword (toLowerCase (object obj))) eqn:Hkey.
    + apply Hre; [done|done|done|lia].
    + rewrite (processObject_no_keyword now1 obj st Hkey).
      by apply processObject_no_keyword.
  - rewrite (processObject_in_cooldown now1 obj st Hcool).
    by apply processObject_in_cooldown.
Qed.

(** ** Frames and the debounce timers *)

Section debounce.
Implicit Types (st : Hook) (ty : ViolationType) (now : Z).

Lemma filter_filter_implied {A} (P Q : A → Prop)
    `{!∀ x, Decision (P x)} `{!∀ x, Decision (Q x)} (l : list A) :
  (∀ x, x ∈ l → P x → Q x) → filter P (filter Q l) = filter P l.
Proof.
  induction l as [|x l IH]; intros Himp; [done|].
  assert (IH' : filter P (filter Q l) = filter P l).
  { apply IH. intros y Hy. apply Himp. by right. }
  rewrite (filter_cons Q). destruct (decide (Q x)) as [HQ|HQ].
  - rewrite !filter_cons. by rewrite IH'.
  - rewrite (filter_cons P). rewrite decide_False; [done|].
    intros HP. apply HQ, Himp; [left|done].
Qed.

Lemma timersOf_timerView ty st st' :
  timerView st' = timerView st → timersOf ty st' = timersOf ty st.
Proof. unfold timerView, timersOf. by intros [= _ -> _]. Qed.

Lemma timersOf_handle_other ty ty' now d s delay st :
  ty ≠ ty' →
  timersOf ty (handleViolationTimeout now ty' d s delay st) = timersOf ty st.
Proof.
  intros Hne. unfold handleViolationTimeout. case_decide; [done|].
  unfold timersOf. simpl. rewrite filter_app, filter_cons_False; [|simpl; congruence].
  apply app_nil_r.
Qed.

Lemma timersOf_handle_same ty now d s delay st :
  timersCoherent st →
  timersOf ty (handleViolationTimeout now ty d s delay st)
  = keepOrStart ty (now + delay) d s st.
Proof.
  intros Hc. unfold handleViolationTimeout, keepOrStart.
  pose proof (coherent_timersOf_pending ty st Hc) as Hp.
  case_decide as Hty.
  - apply Hp in Hty. by destruct (timersOf ty st).
  - assert (Hnil : timersOf ty st = []).
    { destruct (timersOf ty st) eqn:E; [done|]. destruct Hty. by apply Hp. }
    rewrite Hnil. unfold timersOf in *. simpl.
    by rewrite filter_app, Hnil, filter_cons_True.
Qed.

Lemma timersOf_clear_other ty ty' st :
  timersCoherent st → ty ≠ ty' →
  timersOf ty (clearViolationTimeout ty' st) = timersOf ty st.
Proof.
  intros (_ & Hm & Hnd & _) Hne. unfold clearViolationTimeout.
  destruct (violationTimeouts st !! ty') as [h|] eqn:Hty'; [|done].
  unfold timersOf, clearTimeout. simpl. apply filter_filter_implied.
  intros t Ht Htt Hh. destruct (Hm _ _ Hty') as (t' & Ht' & Htt' & Hh').
  assert (t = t') by (apply (NoDup_fmap_eq thandle (pendingTimers st)); congruence).
  congruence.
Qed.

Lemma timersOf_clear_same ty st :
  timersCoherent st → timersOf ty (clearViolationTimeout ty st) = [].
Proof.
  intros Hc. apply elem_of_nil_inv. intros t [Htt Ht]%list_elem_of_filter.
  by apply (clearViolationTimeout_none_of_type ty st Hc t).
Qed.

Lemma processFaceVisibility_coherent now face st :
  timersCoherent st → timersCoherent (processFaceVisibility now face st).
Proof.
  intros Hc. unfold processFaceVisibility. case_match.
  - by apply handleViolationTimeout_coherent.
  - by apply clearViolationTimeout_coherent.
Qed.

Lemma list_find_handle st t :
  timersCoherent st → t ∈ pendingTimers st →
  ∃ i, list_find (λ t', thandle t' = thandle t) (pendingTimers st) = Some (i, t).
Proof.
  intros (_ & _ & Hnd & _) Ht.
  destruct (list_find _ _) as [[i t']|] eqn:Hfind.
  - apply list_find_Some in Hfind as (Hi & Hh & _).
    exists i. do 2 f_equal.
    apply (NoDup_fmap_eq thandle (pendingTimers st)); try done.
    by eapply list_elem_of_lookup_2.
  - apply list_find_None in Hfind. rewrite Forall_forall in Hfind.
    by destruct (Hfind t Ht).
Qed.

End debounce.

(** X7. What a frame does to the two debounce timers, in every state the
    hook reaches.  Without a face the face-absence timer is pending after
    the frame: the one already pending, untouched, or else a new one due
    10 s after the frame; with a face none is pending.  The looking-away
    timer is pending after the frame exactly when a face is seen and its
    first box looks away: the one already pending, untouched, or else a
    new one due 5 s after the frame. *)
Theorem frame_debounce
    (name : string) (created : Z) (events : list Event)
    (now : Z) (face : FaceResult) (objs : list ObjectResult) :
  let st := run (useProctoring name created) events in
  let st' := processFrame now face objs st in
  timersOf FACE_NOT_VISIBLE st'
    = (if hasFace face then []
       else keepOrStart FACE_NOT_VISIBLE (now + 10000)
              "Candidate's face is not visible for more than 10 seconds" high st)
  ∧ timersOf LOOKING_AWAY st'
    = (if gazeAway face
       then keepOrStart LOOKING_AWAY (now + 5000)
              "Candidate looking away from screen for more than 5 seconds"
              medium st
       else []).
Proof.
  intros st st'. pose proof (reachable_coherent name created events) as Hc.
  fold st in Hc. subst st'. unfold processFrame, processDetectionResults.
  set (st0 := withStatus _ st).
  assert (Hc0 : timersCoherent st0) by exact Hc.
  assert (Hc1 := processFaceVisibility_coherent now face st0 Hc0).
  set (st1 := processFaceVisibility now face st0) in *.
  assert (Hc2 : timersCoherent (processMultipleFaces now face st1)).
  { unfold timersCoherent. by rewrite processMultipleFaces_timerView. }
  set (st2 := processMultipleFaces now face st1) in *.
  assert (Hv2 : ∀ ty, timersOf ty st2 = timersOf ty st1).
  { intros ty. apply timersOf_timerView, processMultipleFaces_timerView. }
  assert (Hobjs : ∀ ty st3,
    timersOf ty (foldl (λ acc obj, processObject now obj acc) st3 objs)
    = timersOf ty st3).
  { intros ty st3. apply timersOf_timerView, processObjects_timerView. }
  rewrite !Hobjs. split.
  - (* the face-absence timer *)
    assert (H1 : timersOf FACE_NOT_VISIBLE st1
      = if hasFace face then []
        else keepOrStart FACE_NOT_VISIBLE (now + 10000)
               "Candidate's face is not visible for more than 10 seconds" high st).
    { subst st1. unfold processFaceVisibility. destruct (hasFace face); simpl.
      - by apply timersOf_clear_same.
      - by rewrite timersOf_handle_same. }
    rewrite <- H1, <- Hv2. unfold processLookingAway.
    repeat case_match;
      first [ by apply timersOf_clear_other
            | by apply timersOf_handle_other ].
  - (* the looking-away timer *)
    unfold processLookingAway, gazeAway.
    destruct (hasFace face) eqn:Hface.
    + assert (Hst1 : st1 = clearViolationTimeout FACE_NOT_VISIBLE st0).
      { subst st1. unfold processFaceVisibility. by rewrite Hface. }
      assert (Hnext : nextHandle st2 = nextHandle st).
      { change (nextHandle st2) with (timerView st2).2.
        subst st2. rewrite processMultipleFaces_timerView, Hst1.
        unfold clearViolationTimeout. by case_match. }
      assert (Hla : timersOf LOOKING_AWAY st2 = timersOf LOOKING_AWAY st).
      { rewrite Hv2, Hst1. by rewrite timersOf_clear_other. }
      destruct (faces face) as [|face0 rest].
      * by apply timersOf_clear_same.
      * destruct (isLookingAway face0).
        -- rewrite timersOf_handle_same by done.
           unfold keepOrStart. by rewrite Hla, Hnext.
        -- by apply timersOf_clear_same.
    + by apply timersOf_clear_same.
Qed.

(** X8. A pending debounce timer never fires before it is due, and fires
    when the host runs it at or after its due time: it then leaves the
    queue and the map, so that a new debounce of its type can start, and
    the session changes exactly as by [addViolation] at the firing
    instant, which is subject to the type's cooldown. *)
Theorem timer_fires_when_due
    (name : string) (created : Z) (events : list Event)
    (timer : PendingTimer) (now : Z) :
  let st := run (useProctoring name created) events in
  timer ∈ pendingTimers st →
  (now < tdue timer → fireTimer (thandle timer) now st = None)
  ∧ (tdue timer ≤ now →
     ∃ st', fireTimer (thandle timer) now st = Some st'
       ∧ emissionView st'
         = emissionView (addViolation now (ttype timer) (tdescription timer)
                           (tseverity timer) st)
       ∧ timersOf (ttype timer) st' = []
       ∧ violationTimeouts st' !! ttype timer = None
       ∧ objectCooldowns st' = objectCooldowns st
       ∧ monitoringStatus st' = monitoringStatus st).
Proof.
  intros st Hin. pose proof (reachable_coherent name created events) as Hc.
  fold st in Hc. destruct (list_find_handle st timer Hc Hin) as [i Hfind].
  split.
  - intros Hearly. unfold fireTimer. rewrite Hfind.
    by rewrite (proj2 (Z.leb_gt _ _)) by lia.
  - intros Hdue.
    destruct (fireTimer (thandle timer) now st) as [st'|] eqn:Hfire.
    + exists st'. split; [done|].
      pose proof (fireTimer_coherent _ _ _ _ Hfire Hc) as Hc'.
      assert (Hmap : violationTimeouts st' !! ttype timer = None).
      { revert Hfire. unfold fireTimer. rewrite Hfind.
        rewrite (proj2 (Z.leb_le _ _) Hdue). intros [= <-]. simpl.
        apply lookup_delete_eq. }
      assert (Hnone : timersOf (ttype timer) st' = []).
      { destruct (timersOf (ttype timer) st') eqn:E; [done|].
        assert (Hp : timersOf (ttype timer) st' ≠ []) by (by rewrite E).
        apply (coherent_timersOf_pending _ _ Hc') in Hp as [h Hh]. congruence. }
      revert Hfire. unfold fireTimer. rewrite Hfind.
      rewrite (proj2 (Z.leb_le _ _) Hdue). intros [= <-].
      split; [|split; [done|split; [apply lookup_delete_eq|]]].
      * unfold emissionView, addViolation, lastEmission. simpl.
        by destruct (_ <? _).
      * unfold addViolation, lastEmission. simpl. by destruct (_ <? _).
    + exfalso. revert Hfire. unfold fireTimer. rewrite Hfind.
      by rewrite (proj2 (Z.leb_le _ _) Hdue).
Qed.

Section recording.
Implicit Types (st : Hook) (now : Z).

Lemma fireTimer_status h now st st' :
  fireTimer h now st = Some st' → monitoringStatus st' = monitoringStatus st.
Proof.
  unfold fireTimer. repeat case_match; try done. intros [= <-]. simpl.
  unfold addViolation. by case_match.
Qed.

Lemma processFrame_isRecording now face objs st :
  isRecording (monitoringStatus (processFrame now face objs st))
  = isRecording (monitoringStatus st).
Proof.
  unfold processFrame, processDetectionResults.
  rewrite processObjects_status.
  by destruct (faceRules_rest now face (withStatus
    (λ prev, {| isRecording := isRecording prev;
                faceDetected := hasFace face;
                objectsDetected := object <$> objs;
                currentViolation := currentViolation prev;
                violationStartTime := violationStartTime prev |}) st)) as [-> _].
Qed.

End recording.

(** X9. [isRecording] is written by [startMonitoring] and [stopMonitoring]
    only: after any run of events it is what the last start or stop in the
    run made it, and what it was before when the run has neither. *)
Theorem recording_follows_start_stop (st : Hook) (events : list Event) :
  isRecording (monitoringStatus (run st events))
  = recordingAfter (isRecording (monitoringStatus st)) events.
Proof.
  revert st. induction events as [|e events IH]; intros st; [done|].
  simpl. rewrite IH. f_equal.
  destruct e as [now|now|now face objs|h now|now ty d s]; simpl; try done.
  - apply processFrame_isRecording.
  - destruct (fireTimer h now st) as [st'|] eqn:Hf; [|done].
    simpl. by rewrite (fireTimer_status _ _ _ _ Hf).
  - by rewrite addViolation_status.
Qed.

(** ** The face detector's results *)

(** X10. The TensorFlow path of [detectFaces] keeps the predictions whose
    probability is above 0.7 or is not a number.  Its result has as many
    face boxes as it counts, reports a face exactly when it counts one and
    several exactly when it counts more than one; fed to the hook, it
    makes the hook ask for a MultipleFaces violation exactly when at least
    two predictions were kept, and it is the first kept prediction that
    decides the looking-away rule. *)
Theorem detectFaces_result
    (predictions : list FacePrediction) (now : Z) (st : Hook) :
  let validFaces := filter (λ face, isValidFace face = true) predictions in
  let r := detectFaces predictions in
  wellShaped r
  ∧ hasFace r = (0 <? count r)
  ∧ (∀ face, face ∈ predictions →
       probability face = ProbOther ∨ probability face = ProbArray [] →
       face ∈ validFaces)
  ∧ processMultipleFaces now r st
    = (if (2 <=? length validFaces)%nat
       then addViolation now MULTIPLE_FACES
              ("Multiple people detected in frame ("
                 +:+ pretty (Z.of_nat (length validFaces)) +:+ " faces)")
              critical st
       else st)
  ∧ gazeAway r
    = match validFaces with
      | face :: _ => isLookingAway (predictedFace face)
      | [] => false
      end.
Proof.
  intros validFaces r. subst r. unfold detectFaces. fold validFaces.
  split; [|split; [|split; [|split]]].
  - unfold wellShaped. simpl. rewrite length_fmap. repeat split.
    + destruct (length validFaces) as [|[|n]]; simpl; try done.
      symmetry. apply Z.ltb_lt. lia.
    + intros H%Nat.ltb_lt. lia.
  - simpl. destruct (length validFaces) as [|n]; simpl; [done|].
    symmetry. apply Z.ltb_lt. lia.
  - intros face Hin Hprob. apply list_elem_of_filter. split; [|done].
    unfold isValidFace. by destruct Hprob as [-> | ->].
  - unfold processMultipleFaces. simpl.
    destruct (length validFaces) as [|[|n]] eqn:Hlen; simpl; try done.
    rewrite (proj2 (Z.ltb_lt 1 _)) by lia. done.
  - unfold gazeAway. simpl. by destruct validFaces.
Qed.

(** X11. The backup path of [detectFaces] also returns as many face boxes
    as it counts and reports several faces exactly when it counts more
    than one, and never reports a face without a box.  But it reports a
    face only when there is motion: in a still frame every skin region is
    counted, and [multipleFaces] may be set, while [hasFace] is false, so
    the hook asks for no MultipleFaces violation and cancels the
    looking-away timer. *)
Theorem detectFacesBackup_result
    (hasMotion hasSignificantContent : bool) (faceRegions : list Face)
    (now : Z) (st : Hook) :
  let r := detectFacesBackup hasMotion hasSignificantContent faceRegions in
  wellShaped r
  ∧ (hasFace r = true → faces r ≠ [])
  ∧ (hasMotion = false →
     hasFace r = false
     ∧ count r = Z.of_nat (length faceRegions)
     ∧ multipleFaces r = (1 <? length faceRegions)%nat
     ∧ processMultipleFaces now r st = st
     ∧ gazeAway r = false).
Proof.
  intros r. subst r. unfold detectFacesBackup.
  split; [|split].
  - unfold wellShaped. simpl.
    destruct faceRegions as [|f regions]; simpl.
    + destruct hasMotion, hasSignificantContent; simpl; repeat split; done || lia.
    + repeat split; lia.
  - simpl. destruct faceRegions as [|f regions]; simpl; [|done].
    by destruct hasMotion, hasSignificantContent.
  - intros ->. simpl. repeat split.
    + by destruct faceRegions.
    + destruct faceRegions as [|f [|g regions]]; simpl; try done.
      apply Z.ltb_lt. lia.
Qed.

(** ** The session report *)

Section report.
Implicit Types (ty k : ViolationType) (acc : list (ViolationType * Z)).
Implicit Types (vs : list ViolationEvent).

Lemma bump_keys acc ty k : k ∈ (bump ty acc).*1 ↔ k = ty ∨ k ∈ acc.*1.
Proof.
  induction acc as [|[k' n] acc IH]; simpl.
  - rewrite list_elem_of_singleton, elem_of_nil. tauto.
  - case_decide as Hk; simpl; rewrite !elem_of_cons.
    + subst k'. tauto.
    + rewrite IH. tauto.
Qed.

Lemma bump_NoDup acc ty : NoDup acc.*1 → NoDup (bump ty acc).*1.
Proof.
  induction acc as [|[k' n] acc IH]; simpl.
  - intros _. apply NoDup_singleton.
  - rewrite NoDup_cons. intros [Hk Hnd]. case_decide; simpl.
    + by apply NoDup_cons.
    + apply NoDup_cons. split; [|auto]. rewrite bump_keys. intros [->|?]; done.
Qed.

Lemma elem_of_bump acc ty k n :
  NoDup acc.*1 →
  (k, n) ∈ bump ty acc ↔
  (k = ty ∧ ((n = 1 ∧ ty ∉ acc.*1) ∨ ∃ m, (ty, m) ∈ acc ∧ n = m + 1))
  ∨ (k ≠ ty ∧ (k, n) ∈ acc).
Proof.
  induction acc as [|[k' n'] acc IH]; simpl.
  - intros _. rewrite list_elem_of_singleton. split.
    + intros [= -> ->]. left. split; [done|]. left. split; [done|].
      by intros ?%elem_of_nil.
    + intros [[Hk [[Hn _]|(m & Hm & _)]]|[_ H]].
      * by subst.
      * by apply elem_of_nil in Hm.
      * by apply elem_of_nil in H.
  - rewrite NoDup_cons. intros [Hk' Hnd]. specialize (IH Hnd).
    assert (Hfresh : ∀ m, (k', m) ∉ acc).
    { intros m Hm. apply Hk'. by apply (list_elem_of_fmap_2 fst) in Hm. }
    assert (Hkeys : ∀ x, x ∉ k' :: acc.*1 ↔ x ≠ k' ∧ x ∉ acc.*1).
    { intros x. rewrite elem_of_cons. tauto. }
    assert (Hold : ∀ x m, (x, m) ∈ (k', n') :: acc
                          ↔ (x = k' ∧ m = n') ∨ (x, m) ∈ acc).
    { intros x m. rewrite elem_of_cons. split.
      - intros [[= -> ->]|?]; tauto.
      - intros [[-> ->]|?]; tauto. }
    rewrite Hkeys. setoid_rewrite Hold.
    destruct (decide (k' = ty)) as [Hk|Hk]; simpl.
    + subst k'. rewrite elem_of_cons. split.
      * intros [[= -> ->]|Hin].
        -- left. split; [done|]. right. exists n'. tauto.
        -- destruct (decide (k = ty)) as [->|Hne]; [by destruct (Hfresh n)|].
           right. tauto.
      * intros [[-> [[-> [Hne _]]|(m & [[_ ->]|Hm] & ->)]]|[Hne [[-> ->]|Hin]]];
          try tauto.
        by destruct (Hfresh m).
    + rewrite elem_of_cons, IH. split.
      * intros [[= -> ->]|[[-> Hcase]|[Hne Hin]]].
        -- right. split; [congruence|]. tauto.
        -- left. split; [done|]. destruct Hcase as [[-> Hnot]|(m & Hm & ->)].
           ++ left. split; [done|]. split; [congruence|done].
           ++ right. exists m. tauto.
        -- right. tauto.
      * intros [[-> Hcase]|[Hne [[-> ->]|Hin]]].
        -- right. left. split; [done|].
           destruct Hcase as [[-> [_ Hnot]]|(m & [[? _]|Hm] & ->)].
           ++ tauto.
           ++ congruence.
           ++ right. exists m. tauto.
        -- tauto.
        -- right. right. tauto.
Qed.

Lemma bump_sum acc ty : sumZ snd (bump ty acc) = sumZ snd acc + 1.
Proof.
  unfold sumZ. induction acc as [|[k' n] acc IH]; simpl; [done|].
  case_decide; simpl; lia.
Qed.

Lemma eventsOfType_snoc ty vs v :
  eventsOfType ty (vs ++ [v])
  = eventsOfType ty vs + (if decide (vtype v = ty) then 1 else 0).
Proof.
  unfold eventsOfType. rewrite filter_app, length_app, filter_cons.
  case_decide; simpl; lia.
Qed.

Lemma eventsOfType_nonneg ty vs : 0 ≤ eventsOfType ty vs.
Proof. unfold eventsOfType. lia. Qed.

Lemma eventsOfType_pos ty vs : 0 < eventsOfType ty vs ↔ ty ∈ vtype <$> vs.
Proof.
  unfold eventsOfType. rewrite list_elem_of_fmap. split.
  - destruct (filter _ vs) as [|v l] eqn:E; simpl; [lia|]. intros _.
    assert (Hv : v ∈ filter (λ v, vtype v = ty) vs) by (rewrite E; left).
    apply list_elem_of_filter in Hv as [<- Hv]. eauto.
  - intros (v & -> & Hv).
    assert (Hin : v ∈ filter (λ w, vtype w = vtype v) vs)
      by (by apply list_elem_of_filter).
    destruct (filter _ vs); [by apply elem_of_nil in Hin|simpl; lia].
Qed.

(** The table after the whole list. *)
Lemma violationCounts_spec vs :
  NoDup (violationCounts vs).*1
  ∧ (∀ k n, (k, n) ∈ violationCounts vs ↔ n = eventsOfType k vs ∧ 0 < n)
  ∧ sumZ snd (violationCounts vs) = Z.of_nat (length vs).
Proof.
  unfold violationCounts. induction vs as [|v vs IH] using rev_ind.
  - simpl. split; [constructor|]. split; [|done].
    intros k n. rewrite elem_of_nil. unfold eventsOfType. simpl. lia.
  - rewrite foldl_snoc. destruct IH as (Hnd & Hin & Hsum).
    set (acc := foldl _ [] vs) in *.
    split; [by apply bump_NoDup|]. split.
    + intros k n. rewrite (elem_of_bump _ _ _ _ Hnd), eventsOfType_snoc.
      pose proof (eventsOfType_nonneg (vtype v) vs) as Hnn.
      assert (Hkey : vtype v ∈ acc.*1 ↔ 0 < eventsOfType (vtype v) vs).
      { split.
        - intros ([k' m] & Hk & Hm)%list_elem_of_fmap. simpl in Hk. subst k'.
          apply Hin in Hm as [-> ?]. done.
        - intros Hpos. apply list_elem_of_fmap.
          exists (vtype v, eventsOfType (vtype v) vs). split; [done|].
          by apply Hin. }
      split.
      * intros [[-> [[-> Hnot]|(m & Hm & ->)]]|[Hne Hk]].
        -- rewrite decide_True by done. rewrite Hkey in Hnot. lia.
        -- rewrite decide_True by done. apply Hin in Hm as [-> ?]. lia.
        -- rewrite decide_False by done. apply Hin in Hk. lia.
      * intros [-> Hpos]. destruct (decide (vtype v = k)) as [<-|Hne].
        -- left. split; [done|].
           destruct (decide (eventsOfType (vtype v) vs = 0)) as [Hz|Hnz].
           ++ left. rewrite Hz. split; [done|]. rewrite Hkey. lia.
           ++ right. exists (eventsOfType (vtype v) vs). split; [|done].
              apply Hin. lia.
        -- right. split; [done|]. apply Hin. lia.
    + rewrite bump_sum, Hsum, length_app. simpl. lia.
Qed.

Lemma sumZ_bounds {A} (f : A → Z) (a b : Z) (l : list A) :
  (∀ x, x ∈ l → a ≤ f x ≤ b) →
  a * Z.of_nat (length l) ≤ sumZ f l ≤ b * Z.of_nat (length l).
Proof.
  unfold sumZ. induction l as [|x l IH]; intros Hf; simpl length; simpl foldr; [lia|].
  assert (a ≤ f x ≤ b) by (apply Hf; left).
  assert (Hl : ∀ y, y ∈ l → a ≤ f y ≤ b) by (intros; apply Hf; by right).
  specialize (IH Hl). lia.
Qed.

(** The report has one line per type of the timeline. *)
Lemma violationCounts_length vs :
  length (violationCounts vs) = length (remove_dups (vtype <$> vs)).
Proof.
  destruct (violationCounts_spec vs) as (Hnd & Hin & _).
  rewrite <- (length_fmap fst). apply Permutation_length.
  apply NoDup_Permutation; [done|apply NoDup_remove_dups|].
  intros k. rewrite elem_of_remove_dups, <- eventsOfType_pos, list_elem_of_fmap.
  split.
  - intros ([k' n] & -> & Hk). apply Hin in Hk as [-> ?]. done.
  - intros Hpos. exists (k, eventsOfType k vs). split; [done|]. by apply Hin.
Qed.

End report.

(** X12. The report's violation table has one entry per type that occurs
    in the timeline, holding the number of events of that type; the
    entries add up to the number of events, and the table is empty
    exactly when the timeline is. *)
Theorem violationCounts_table (violations : list ViolationEvent) :
  NoDup (violationCounts violations).*1
  ∧ (∀ type n, (type, n) ∈ violationCounts violations
               ↔ n = eventsOfType type violations ∧ 0 < n)
  ∧ sumZ snd (violationCounts violations) = Z.of_nat (length violations)
  ∧ (violationCounts violations = [] ↔ violations = []).
Proof.
  destruct (violationCounts_spec violations) as (Hnd & Hin & Hsum).
  split; [done|]. split; [done|]. split; [done|]. split.
  - intros Hnil. rewrite Hnil in Hsum. apply length_zero_iff_nil.
    unfold sumZ in Hsum. simpl in Hsum. lia.
  - by intros ->.
Qed.

(** X13. The score and the number of types: with [k] different types in
    the timeline (the number of lines of the report's table) the score is
    at least [100 - 20 k] and at most [100 - 2 k], cut off at 0; it is 100
    exactly when there is no violation at all. *)
Theorem score_by_number_of_types (violations : list ViolationEvent) :
  let k := Z.of_nat (length (violationCounts violations)) in
  Z.max 0 (100 - 20 * k) ≤ calculateIntegrityScore violations
  ∧ calculateIntegrityScore violations ≤ Z.max 0 (100 - 2 * k)
  ∧ (calculateIntegrityScore violations = 100 ↔ violations = []).
Proof.
  intros k.
  assert (Hb : 2 * k ≤ sumZ (groupDeduction (scoreKey <$> violations))
                          (remove_dups (vtype <$> violations)) ≤ 20 * k).
  { subst k. rewrite violationCounts_length. apply sumZ_bounds.
    intros ty Hty. rewrite elem_of_remove_dups in Hty.
    assert (Hsome : is_Some (groupMax ty (scoreKey <$> violations))).
    { apply groupMax_is_Some. rewrite <- list_fmap_compose. exact Hty. }
    unfold groupDeduction. destruct Hsome as [[] ->]; simpl; lia. }
  assert (Hscore : calculateIntegrityScore violations
    = clamp (100 - sumZ (groupDeduction (scoreKey <$> violations))
                        (remove_dups (vtype <$> violations))) 0 100).
  { rewrite calculateIntegrityScore_reference.
    unfold referenceScore, referenceScoreOfPairs.
    rewrite <- list_fmap_compose. reflexivity. }
  assert (Hk : 0 ≤ k) by (subst k; lia).
  rewrite Hscore. unfold clamp. split; [lia|]. split; [lia|]. split.
  - intros H100. assert (k = 0) by lia.
    assert (Hnil : violationCounts violations = [])
      by (apply length_zero_iff_nil; subst k; lia).
    destruct (violationCounts_spec violations) as (_ & _ & Hsum).
    rewrite Hnil in Hsum. apply length_zero_iff_nil.
    unfold sumZ in Hsum. simpl in Hsum. lia.
  - intros ->. reflexivity.
Qed.

(** X14. The report's duration: for a duration that is not negative the
    minutes and seconds shown recombine to it and the seconds are below
    60.  For a negative duration that is not a whole number of minutes
    they do not: the minutes are rounded down and the seconds keep the
    sign, so together they are one minute short. *)
Theorem formatDuration_parts (seconds : Z) :
  (0 ≤ seconds →
   60 * durationMinutes seconds + durationSeconds seconds = seconds
   ∧ 0 ≤ durationSeconds seconds < 60)
  ∧ (seconds < 0 → durationSeconds seconds ≠ 0 →
     60 * durationMinutes seconds + durationSeconds seconds = seconds - 60
     ∧ -60 < durationSeconds seconds < 0).
Proof.
  unfold durationMinutes, durationSeconds.
  split; intros; Z.to_euclidean_division_equations; lia.
Qed.

(** X15. Stopping at or after the start time records the whole seconds
    elapsed since the start: the duration is not negative, it is the
    elapsed milliseconds divided by 1000 and rounded down, and the report
    shows it as minutes and seconds that recombine to it. *)
Theorem stopMonitoring_duration (now : Z) (st : Hook) :
  startTime (sessionData st) ≤ now →
  let seconds := totalDuration (sessionData (stopMonitoring now st)) in
  0 ≤ seconds
  ∧ 1000 * seconds ≤ now - startTime (sessionData st) < 1000 * seconds + 1000
  ∧ 60 * durationMinutes seconds + durationSeconds seconds = seconds
  ∧ 0 ≤ durationSeconds seconds < 60.
Proof.
  intros Hstart seconds. subst seconds. simpl.
  unfold durationMinutes, durationSeconds.
  Z.to_euclidean_division_equations. lia.
Qed.

(** ** The alerts panel *)

Section alerts.
Implicit Types (v w : ViolationEvent) (l vs : list ViolationEvent).

Lemma insertByTime_perm v l : insertByTime v l ≡ₚ v :: l.
Proof.
  induction l as [|w l IH]; simpl; [done|].
  case_match; [done|]. rewrite IH. apply perm_swap.
Qed.

Lemma newestFirst_perm vs : newestFirst vs ≡ₚ vs.
Proof.
  induction vs as [|v vs IH]; simpl; [done|].
  by rewrite insertByTime_perm, IH.
Qed.

Lemma insertByTime_sorted v l :
  StronglySorted notOlder l → StronglySorted notOlder (insertByTime v l).
Proof.
  induction l as [|w l IH]; simpl.
  - intros _. repeat constructor.
  - intros Hs. pose proof Hs as [Hall Hl]%StronglySorted_cons.
    destruct (timestamp w <=? timestamp v) eqn:Hle.
    + apply Z.leb_le in Hle. apply StronglySorted_cons. split; [|done].
      constructor; [exact Hle|].
      eapply Forall_impl; [exact Hall|]. unfold notOlder. intros; lia.
    + apply Z.leb_gt in Hle. apply StronglySorted_cons. split; [|auto].
      rewrite insertByTime_perm. constructor; [unfold notOlder; lia|done].
Qed.

Lemma newestFirst_sorted vs : StronglySorted notOlder (newestFirst vs).
Proof.
  induction vs as [|v vs IH]; simpl; [constructor|].
  by apply insertByTime_sorted.
Qed.

Lemma insertByTime_stable (x : Z) v l :
  filter (λ u, timestamp u = x) (insertByTime v l)
  = filter (λ u, timestamp u = x) (v :: l).
Proof.
  induction l as [|w l IH]; simpl; [done|].
  destruct (timestamp w <=? timestamp v) eqn:Hle; [done|].
  apply Z.leb_gt in Hle.
  rewrite (filter_cons _ w), IH, !(filter_cons _ v), (filter_cons _ w).
  repeat case_decide; try done. lia.
Qed.

Lemma newestFirst_stable (x : Z) vs :
  filter (λ u, timestamp u = x) (newestFirst vs)
  = filter (λ u, timestamp u = x) vs.
Proof.
  induction vs as [|v vs IH]; simpl; [done|].
  by rewrite insertByTime_stable, !filter_cons, IH.
Qed.

End alerts.

(** X16. What the alerts panel shows.  Its sort leaves in the array the
    same events, newest first, events of equal timestamp in the order
    they had; the panel lists the first 20 of them, all of them when
    there are fewer, and no event it leaves out is newer than one it
    lists. *)
Theorem alerts_panel_recent (violations : list ViolationEvent) :
  let view := renderAlertsPanel violations in
  violationsAfter view ≡ₚ violations
  ∧ StronglySorted notOlder (violationsAfter view)
  ∧ (∀ x, filter (λ v, timestamp v = x) (violationsAfter view)
          = filter (λ v, timestamp v = x) violations)
  ∧ recentViolations view `prefix_of` violationsAfter view
  ∧ length (recentViolations view) = (20 `min` length violations)%nat
  ∧ (∀ a b, a ∈ recentViolations view →
            b ∈ drop 20 (violationsAfter view) → notOlder a b).
Proof.
  simpl. pose proof (newestFirst_perm violations) as Hperm.
  pose proof (newestFirst_sorted violations) as Hsorted.
  split; [done|]. split; [done|].
  split; [intros x; apply newestFirst_stable|].
  split; [apply prefix_take|]. split.
  - rewrite length_take. by rewrite (Permutation_length Hperm).
  - intros a b Ha Hb. rewrite <- (take_drop 20 (newestFirst violations)) in Hsorted.
    by apply (StronglySorted_app_1_elem_of _ _ _ _ _ Hsorted).
Qed.

(** X17. The panel sorts the very array the session holds, and this does
    not disturb the rest: the panel's counts of critical and high events
    and its total are those of the array as it was, the score of the
    sorted array is the score of the array as it was, and so is the score
    the hook stores when it next appends an event to it. *)
Theorem alerts_panel_sort_harmless
    (violations : list ViolationEvent) (next : ViolationEvent) :
  let view := renderAlertsPanel violations in
  criticalViolations view
    = length (filter (λ v, severity v = critical) violations)
  ∧ highViolations view = length (filter (λ v, severity v = high) violations)
  ∧ totalViolations view = length violations
  ∧ (criticalViolations view + highViolations view ≤ totalViolations view)%nat
  ∧ calculateIntegrityScore (violationsAfter view)
    = calculateIntegrityScore violations
  ∧ calculateIntegrityScore (violationsAfter view ++ [next])
    = calculateIntegrityScore (violations ++ [next]).
Proof.
  simpl. pose proof (newestFirst_perm violations) as Hperm.
  assert (Hc : length (filter (λ v, severity v = critical) (newestFirst violations))
             = length (filter (λ v, severity v = critical) violations))
    by (by rewrite Hperm).
  assert (Hh : length (filter (λ v, severity v = high) (newestFirst violations))
             = length (filter (λ v, severity v = high) violations))
    by (by rewrite Hperm).
  assert (Hscore : ∀ l l' : list ViolationEvent, l ≡ₚ l' →
            calculateIntegrityScore l = calculateIntegrityScore l').
  { intros l l' Hl. apply calculateIntegrityScore_groupMax. intros ty.
    apply groupMax_perm. by apply fmap_Permutation. }
  split; [done|]. split; [done|]. split; [by rewrite Hperm|].
  split; [|split].
  - rewrite Hc, Hh, (Permutation_length Hperm). clear.
    induction violations as [|v vs IH]; simpl; [lia|].
    rewrite !filter_cons. destruct (severity v); repeat case_decide;
      try done; simpl; lia.
  - by apply Hscore.
  - apply Hscore. by rewrite Hperm.
Qed.

(** ** More on objects and the status line *)

Section objects.
Implicit Types (st : Hook) (now : Z) (obj : ObjectResult).

Lemma processObject_by_rule now obj st ty sev :
  objectRule (toLowerCase (object obj)) = Some (ty, sev) →
  30000 < now - lastDetection st (toLowerCase (object obj)) →
  ∃ d, processObject now obj st = emitObject now (toLowerCase (object obj)) ty d sev st.
Proof.
  unfold objectRule, processObject. cbv zeta. intros Hrule Hel.
  rewrite (proj2 (Z.ltb_lt _ _) Hel).
  destruct (includes (toLowerCase (object obj)) "phone").
  { injection Hrule as <- <-. eauto. }
  destruct (includes (toLowerCase (object obj)) "book").
  { injection Hrule as <- <-. eauto. }
  destruct (includes (toLowerCase (object obj)) "laptop"
            || includes (toLowerCase (object obj)) "tablet"); [|done].
  injection Hrule as <- <-. eauto.
Qed.

Lemma objectRule_cooldown key ty sev :
  objectRule key = Some (ty, sev) → getCooldownPeriod ty = 30000.
Proof.
  unfold objectRule. repeat case_match; intros [= <- <-]; reflexivity.
Qed.

Lemma processFrame_status now face objs st :
  monitoringStatus (processFrame now face objs st)
  = {| isRecording := isRecording (monitoringStatus st);
       faceDetected := hasFace face;
       objectsDetected := object <$> objs;
       currentViolation := currentViolation (monitoringStatus st);
       violationStartTime := violationStartTime (monitoringStatus st) |}.
Proof.
  unfold processFrame, processDetectionResults.
  rewrite processObjects_status.
  by destruct (faceRules_rest now face (withStatus
    (λ prev, {| isRecording := isRecording prev;
                faceDetected := hasFace face;
                objectsDetected := object <$> objs;
                currentViolation := currentViolation prev;
                violationStartTime := violationStartTime prev |}) st)) as [-> _].
Qed.

End objects.

(** X18. An object seen again.  When an object that falls under a rule is
    looked at and its event is emitted, the same label seen again more
    than 30 s later is looked at and emitted again: the label's cooldown
    and the type's cooldown are both 30 s and both count from the first
    emission. *)
Theorem object_seen_again
    (now1 now2 : Z) (obj : ObjectResult) (st : Hook)
    (ty : ViolationType) (sev : Severity) :
  objectRule (toLowerCase (object obj)) = Some (ty, sev) →
  30000 < now1 - lastDetection st (toLowerCase (object obj)) →
  ¬ now1 - lastEmission st ty < getCooldownPeriod ty →
  30000 < now2 - now1 →
  ∃ d1 d2,
    violations (sessionData (processObject now2 obj (processObject now1 obj st)))
    = violations (sessionData st)
      ++ [newViolation now1 ty d1 sev; newViolation now2 ty d2 sev].
Proof.
  intros Hrule Hel Hfree Hlater.
  destruct (processObject_by_rule now1 obj st ty sev Hrule Hel) as [d1 H1].
  assert (Hkey : hasKeyword (toLowerCase (object obj)) = true).
  { revert Hrule. unfold objectRule, hasKeyword.
    destruct (includes _ "phone"), (includes _ "book"); simpl; try done.
    by destruct (includes _ "laptop" || includes _ "tablet"). }
  assert (Hlast : lastDetection (processObject now1 obj st)
                    (toLowerCase (object obj)) = now1)
    by (by apply processObject_looked).
  destruct (processObject_by_rule now2 obj (processObject now1 obj st) ty sev Hrule)
    as [d2 H2]; [lia|].
  exists d1, d2. rewrite H2. unfold emitObject at 1. simpl.
  rewrite H1. unfold emitObject. 
  pose proof (addViolation_after_emission now1 now2 ty d1 d2 sev sev st Hfree) as Htwice.
  rewrite (objectRule_cooldown _ _ _ Hrule) in Htwice.
  rewrite (proj2 (Z.ltb_ge _ _)) in Htwice by lia.
  transitivity (violations (sessionData
    (addViolation now2 ty d2 sev (addViolation now1 ty d1 sev st))));
    [|exact Htwice].
  clear. unfold addViolation, lastEmission. simpl.
  by repeat (destruct (_ <? _); simpl).
Qed.

(** X19. The TensorFlow path of [detectObjects] reports a prediction
    exactly when its score is above 0.4 and its lowercased class contains
    an allow-list label or is contained in one; so a class that is only a
    part of an allow-list label is reported as well.  The objects come in
    the order of the predictions, each with its class and score, and the
    hook lists their classes in [objectsDetected]. *)
Theorem detectObjects_reports (predictions : list Prediction) :
  (∀ o, o ∈ detectObjects predictions ↔
        ∃ p label, p ∈ predictions ∧ o = mkObject (class p) (score p)
          ∧ Qle_bool (score p) scoreThreshold = false
          ∧ label ∈ suspiciousObjects ∧ relatedLabel (class p) label = true)
  ∧ object <$> detectObjects predictions `sublist_of` class <$> predictions
  ∧ (∀ more, detectObjects (predictions ++ more)
             = detectObjects predictions ++ detectObjects more)
  ∧ (∀ now face st,
       objectsDetected (monitoringStatus
         (processFrame now face (detectObjects predictions) st))
       = class <$> filter (λ p, isSuspicious p = true) predictions).
Proof.
  assert (Hsusp : ∀ p, isSuspicious p = true ↔
            Qle_bool (score p) scoreThreshold = false
            ∧ ∃ label, label ∈ suspiciousObjects ∧ relatedLabel (class p) label = true).
  { intros p. unfold isSuspicious, relatedLabel.
    rewrite andb_true_iff, negb_true_iff, existsb_exists.
    setoid_rewrite <- list_elem_of_In. tauto. }
  split; [|split; [|split]].
  - intros o. unfold detectObjects. rewrite list_elem_of_fmap. split.
    + intros (p & -> & [Hp Hin]%list_elem_of_filter).
      apply Hsusp in Hp as (Hsc & label & Hl & Hrel).
      exists p, label. tauto.
    + intros (p & label & Hin & -> & Hsc & Hl & Hrel). exists p.
      split; [done|]. apply list_elem_of_filter. split; [|done].
      apply Hsusp. eauto.
  - unfold detectObjects. rewrite <- list_fmap_compose.
    change (object ∘ _) with class.
    apply fmap_sublist, sublist_filter.
  - intros more. unfold detectObjects. by rewrite filter_app, fmap_app.
  - intros now face st. rewrite processFrame_status. simpl.
    unfold detectObjects. by rewrite <- list_fmap_compose.
Qed.

(** X20. The status line after a frame and after a stop.  While recording,
    a frame without a face gives "No Face Detected"; with a face it gives
    "Objects Detected" as soon as the detector reported any object, also
    one that falls under no rule, and "Monitoring Active" otherwise.
    After [stopMonitoring] the line is "Not Recording". *)
Theorem status_line
    (now : Z) (face : FaceResult) (objs : list ObjectResult) (st : Hook) :
  (isRecording (monitoringStatus st) = true →
   getStatusText (monitoringStatus (processFrame now face objs st))
   = if hasFace face
     then match objs with
          | [] => "Monitoring Active"
          | _ :: _ => "Objects Detected"
          end
     else "No Face Detected")
  ∧ getStatusText (monitoringStatus (stopMonitoring now st)) = "Not Recording".
Proof.
  split; [|done].
  intros Hrec. rewrite processFrame_status. unfold getStatusText. simpl.
  rewrite Hrec. simpl. destruct (hasFace face); simpl; [|done].
  by destruct objs.
Qed.

(** ** Witnesses for the properties above *)

Lemma cooldown_window_witness :
  violationsOf PHONE_DETECTED
    (run sessionWithPhone
       [EFrame (t0 + 3000) facingFace [cellPhone];
        EAddViolation (t0 + 20000) PHONE_DETECTED "seen by hand" critical])
  = violationsOf PHONE_DETECTED sessionWithPhone
  ∧ violationCooldowns
      (run sessionWithPhone
         [EFrame (t0 + 3000) facingFace [cellPhone];
          EAddViolation (t0 + 20000) PHONE_DETECTED "seen by hand" critical])
    !! PHONE_DETECTED = Some (t0 + 1500).
Proof.
  apply (cooldown_window PHONE_DETECTED (t0 + 1500) sessionWithPhone).
  - vm_compute. reflexivity.
  - repeat constructor; vm_compute; reflexivity.
Defined.

Lemma addViolation_twice_witness :
  violations (sessionData
    (addViolation (t0 + 5000) LOOKING_AWAY "again" medium
       (addViolation t0 LOOKING_AWAY "away" medium (useProctoring "Ann" t0))))
  = violations (sessionData (useProctoring "Ann" t0))
    ++ [newViolation t0 LOOKING_AWAY "away" medium]
    ++ (if t0 + 5000 - t0 <? getCooldownPeriod LOOKING_AWAY then []
        else [newViolation (t0 + 5000) LOOKING_AWAY "again" medium]).
Proof.
  apply (addViolation_twice t0 (t0 + 5000) LOOKING_AWAY "away" "again"
           medium medium (useProctoring "Ann" t0)).
  vm_compute. discriminate.
Defined.

Lemma processObject_relook_witness :
  processObject (t0 + 10000) cellPhone
    (processObject t0 cellPhone (useProctoring "Ann" t0))
  = processObject t0 cellPhone (useProctoring "Ann" t0).
Proof.
  apply (proj2 (processObject_relook t0 (t0 + 10000) cellPhone cellPhone
                  (useProctoring "Ann" t0))).
  - reflexivity.
  - reflexivity.
  - vm_compute. reflexivity.
  - vm_compute. discriminate.
Defined.

Lemma timer_fires_when_due_witness :
  fireTimer 1 (t0 + 3000) sessionLookingAway = None
  ∧ ∃ st', fireTimer 1 (t0 + 7000) sessionLookingAway = Some st'
      ∧ emissionView st'
        = emissionView (addViolation (t0 + 7000) LOOKING_AWAY
            "Candidate looking away from screen for more than 5 seconds"
            medium sessionLookingAway)
      ∧ timersOf LOOKING_AWAY st' = []
      ∧ violationTimeouts st' !! LOOKING_AWAY = None
      ∧ objectCooldowns st' = objectCooldowns sessionLookingAway
      ∧ monitoringStatus st' = monitoringStatus sessionLookingAway.
Proof.
  assert (Hin : lookingAwayTimer ∈ pendingTimers sessionLookingAway).
  { vm_compute. left. }
  split.
  - apply (proj1 (timer_fires_when_due "Ann" t0
      [EStart t0; EFrame (t0 + 1500) awayFace []] lookingAwayTimer (t0 + 3000) Hin)).
    vm_compute. reflexivity.
  - apply (proj2 (timer_fires_when_due "Ann" t0
      [EStart t0; EFrame (t0 + 1500) awayFace []] lookingAwayTimer (t0 + 7000) Hin)).
    vm_compute. discriminate.
Defined.

Lemma detectFaces_result_witness :
  mkFacePrediction ProbOther (mkFace true)
  ∈ filter (λ face, isValidFace face = true)
      [mkFacePrediction (ProbNumber (1 # 2)) (mkFace false);
       mkFacePrediction ProbOther (mkFace true)].
Proof.
  apply (proj1 (proj2 (proj2 (detectFaces_result
    [mkFacePrediction (ProbNumber (1 # 2)) (mkFace false);
     mkFacePrediction ProbOther (mkFace true)] t0 (useProctoring "Ann" t0))))).
  - right. left.
  - left. reflexivity.
Defined.

Lemma detectFacesBackup_result_witness :
  hasFace (detectFacesBackup false true [mkFace false; mkFace true]) = false
  ∧ count (detectFacesBackup false true [mkFace false; mkFace true]) = 2
  ∧ multipleFaces (detectFacesBackup false true [mkFace false; mkFace true]) = true
  ∧ processMultipleFaces t0
      (detectFacesBackup false true [mkFace false; mkFace true])
      (useProctoring "Ann" t0) = useProctoring "Ann" t0
  ∧ gazeAway (detectFacesBackup false true [mkFace false; mkFace true]) = false.
Proof.
  apply (proj2 (proj2 (detectFacesBackup_result false true
    [mkFace false; mkFace true] t0 (useProctoring "Ann" t0)))).
  reflexivity.
Defined.

Lemma formatDuration_parts_witness :
  (60 * durationMinutes 125 + durationSeconds 125 = 125
   ∧ 0 ≤ durationSeconds 125 < 60)
  ∧ (60 * durationMinutes (-5) + durationSeconds (-5) = -5 - 60
     ∧ -60 < durationSeconds (-5) < 0).
Proof.
  split.
  - apply (proj1 (formatDuration_parts 125)). lia.
  - apply (proj2 (formatDuration_parts (-5))); [lia|]. vm_compute. discriminate.
Defined.

Lemma stopMonitoring_duration_witness :
  let seconds :=
    totalDuration (sessionData (stopMonitoring (t0 + 5000) sessionWithPhone)) in
  0 ≤ seconds
  ∧ 1000 * seconds ≤ t0 + 5000 - startTime (sessionData sessionWithPhone)
      < 1000 * seconds + 1000
  ∧ 60 * durationMinutes seconds + durationSeconds seconds = seconds
  ∧ 0 ≤ durationSeconds seconds < 60.
Proof.
  apply (stopMonitoring_duration (t0 + 5000) sessionWithPhone).
  vm_compute. discriminate.
Defined.

Lemma alerts_panel_recent_witness : notOlder phoneHigh phoneCritical.
Proof.
  apply (proj2 (proj2 (proj2 (proj2 (proj2
    (alerts_panel_recent (replicate 20 phoneHigh ++ [phoneCritical]))))))).
  - vm_compute. left.
  - vm_compute. left.
Defined.

Lemma object_seen_again_witness :
  ∃ d1 d2,
    violations (sessionData
      (processObject (t0 + 31000) cellPhone
         (processObject t0 cellPhone (useProctoring "Ann" t0))))
    = violations (sessionData (useProctoring "Ann" t0))
      ++ [newViolation t0 PHONE_DETECTED d1 critical;
          newViolation (t0 + 31000) PHONE_DETECTED d2 critical].
Proof.
  apply (object_seen_again t0 (t0 + 31000) cellPhone (useProctoring "Ann" t0)
           PHONE_DETECTED critical).
  - reflexivity.
  - vm_compute. reflexivity.
  - vm_compute. discriminate.
  - vm_compute. reflexivity.
Defined.

Lemma status_line_witness :
  getStatusText (monitoringStatus
    (processFrame (t0 + 3000) facingFace [mouse] sessionWithPhone))
  = "Objects Detected".
Proof.
  apply (proj1 (status_line (t0 + 3000) facingFace [mouse] sessionWithPhone)).
  reflexivity.
Defined.
